(** * ThreadPool: a fixed-size worker pool over a mutex-guarded task queue

    Shallow embedding of [include/thread_pool.hpp] as an interleaving
    transition system.  Every access to [tasks_] and [stop_] in the source
    happens with [queue_mutex_] held, and a thread holding the mutex never
    blocks except inside [status_update_.wait], which releases it.  A critical
    section is therefore one atomic transition; everything a thread does
    outside the lock (calling [task()], [notify_one], [notify_all], [join])
    is a transition of its own, so that other threads can run in between.

    Callers may call [submit] at any moment at which the pool object exists,
    also while the destructor runs.  The scheduler is arbitrary: any thread
    that can move may move next.  A callable is a total function that returns
    or throws; it does not block and does not touch the pool. *)

From stdpp Require Import base list.
From Stdlib Require Import ZArith Lia Floats.

(** ** Data model *)

Section Model.
Variables V E : Type.

(** What a callable does when invoked: it returns a value of the task's
    [return_type] or throws. *)
Inductive outcome :=
| Returned (v : V)
| Threw (e : E).

(** The zero-argument callable stored in a [std::packaged_task<return_type()>]. *)
Definition callable := unit → outcome.

(** [std::bind(std::forward<F>(f), std::forward<Args>(args)...)]: the bind
    object stores decayed copies of [f] and of the arguments; invoking it
    applies the stored callable to the stored arguments. *)
Definition bind {A : Type} (f : A → outcome) (args : A) : callable :=
  λ _, f args.

(** The heap object behind [std::make_shared<std::packaged_task<...>>]: the
    stored callable and the shared state read by the [std::future]. *)
Record packaged_task := PackagedTask {
  stored_fn : callable;
  shared_state : option outcome
}.

(** Where a worker thread is inside [workerThread]. *)
Inductive worker :=
| AtLoop                (* at the top of [while (true)], lock not held *)
| Blocked               (* asleep inside [status_update_.wait] *)
| Woken                 (* unblocked, has yet to re-acquire the lock *)
| Running (task : nat)  (* left the critical section, about to call [task()] *)
| Terminated            (* returned from [workerThread] *)
| Crashed.              (* an exception left [workerThread], or [front()] on
                           an empty queue *)

(** Where the destroying thread is inside [~ThreadPool]. *)
Inductive dtor_phase :=
| Alive                 (* the destructor has not been entered *)
| StopSet               (* [stop_ = true] done, before [notify_all] *)
| Joining (k : nat)     (* in the join loop, about to join [workers_[k]] *)
| Destroyed.            (* the destructor has returned *)

(** The pool.  A queue entry is the lambda [[task]() { task->operator()(); }]; it is
    identified by the [shared_ptr] it captures, an index into [heap].  The
    same index is the [std::future] handed to the caller.  [dequeued] and
    [executed] are history variables: no transition reads them. *)
Record ThreadPool := MkPool {
  workers_ : list worker;
  tasks_ : list nat;
  stop_ : bool;
  heap : list packaged_task;
  unnotified : nat;             (* [submit] calls between unlock and [notify_one] *)
  dtor : dtor_phase;
  dequeued : list (nat * nat);  (* (worker, task) in the order of [tasks_.pop()] *)
  executed : list nat           (* tasks in the order their [task()] completed *)
}.

Definition set_workers (ws : list worker) (p : ThreadPool) : ThreadPool :=
  MkPool ws (tasks_ p) (stop_ p) (heap p) (unnotified p) (dtor p)
         (dequeued p) (executed p).

Definition set_worker (i : nat) (w : worker) (p : ThreadPool) : ThreadPool :=
  set_workers (<[i:=w]> (workers_ p)) p.

(** ** Construction *)

(** [for (int i = 0; i < num_threads; ++i) workers_.emplace_back(...)]:
    the loop body runs [num_threads] times when that is positive and not at
    all otherwise. *)
Definition ThreadPool_ctor (num_threads : Z) : ThreadPool :=
  MkPool (replicate (Z.to_nat num_threads) AtLoop) [] false [] 0 Alive [] [].

(** The errors of the specification's taxonomy. *)
Inductive error := ConfigurationError | PoolShutdownError.

(** Outcome of an operation that either completes or throws. *)
Inductive result (T : Type) :=
| Ok (x : T)
| Fail (e : error).

(** The expression [ThreadPool pool(n)]: the constructor has no [throw]. *)
Definition construct (num_threads : Z) : result ThreadPool :=
  Ok _ (ThreadPool_ctor num_threads).

(** ** submit *)

(** Lines 85-93: allocate the packaged task, take its future, append the
    wrapping lambda to [tasks_] under the lock.  The [notify_one] of line 94
    is still owed when the lock is released. *)
Definition submit (c : callable) (p : ThreadPool) : ThreadPool * nat :=
  let t := length (heap p) in
  (MkPool (workers_ p) (tasks_ p ++ [t]) (stop_ p)
          (heap p ++ [PackagedTask c None]) (S (unnotified p)) (dtor p)
          (dequeued p) (executed p),
   t).

(** The call [pool.submit(f, args...)] as an expression: no path of
    [submit] throws. *)
Definition try_submit (c : callable) (p : ThreadPool) : result (ThreadPool * nat) :=
  Ok _ (submit c p).

(** [future.get()]: the stored outcome once the shared state is ready;
    [None] while the caller would still block.  The model follows the pool up
    to the return of the destructor's body; the destruction of the members
    that follows it (which abandons the shared states of the tasks still
    queued) lies outside it. *)
Definition get (p : ThreadPool) (fut : nat) : option outcome :=
  match heap p !! fut with
  | Some pt => shared_state pt
  | None => None
  end.

Definition is_blocked (w : worker) : bool :=
  match w with Blocked => true | _ => false end.

Definition wake (w : worker) : worker :=
  match w with Blocked => Woken | _ => w end.

(** Line 94, [status_update_.notify_one()]: unblocks one of the threads
    waiting on the condition variable, if there is any.  [w] names the
    thread the implementation picks. *)
Definition notify_one (w : option nat) (p : ThreadPool) : option ThreadPool :=
  match unnotified p with
  | O => None
  | S n =>
      let p' := MkPool (workers_ p) (tasks_ p) (stop_ p) (heap p) n (dtor p)
                       (dequeued p) (executed p) in
      match w with
      | Some i =>
          match workers_ p !! i with
          | Some Blocked => Some (set_worker i Woken p')
          | _ => None
          end
      | None =>
          if forallb (λ x, negb (is_blocked x)) (workers_ p) then Some p' else None
      end
  end.

(** A spurious wake-up of worker [i]. *)
Definition spurious (i : nat) (p : ThreadPool) : option ThreadPool :=
  match workers_ p !! i with
  | Some Blocked => Some (set_worker i Woken p)
  | _ => None
  end.

(** ** workerThread *)

(** Line 106, the predicate [[this] { return stop_ || !tasks_.empty(); }]. *)
Definition wait_pred (p : ThreadPool) : bool :=
  stop_ p || negb (bool_decide (tasks_ p = [])).

(** Lines 105-112, run by worker [i] with the lock held:
    [wait(lock, pred)] is [while (!pred()) wait(lock);], so a false
    predicate puts the thread to sleep (releasing the lock) and a true one
    falls through to the exit test and the pop. *)
Definition critical_section (i : nat) (p : ThreadPool) : ThreadPool :=
  if negb (wait_pred p) then set_worker i Blocked p
  else if stop_ p && bool_decide (tasks_ p = []) then set_worker i Terminated p
  else match tasks_ p with
       | t :: q =>
           MkPool (<[i:=Running t]> (workers_ p)) q (stop_ p) (heap p)
                  (unnotified p) (dtor p) (dequeued p ++ [(i, t)]) (executed p)
       | [] => set_worker i Crashed p
       end.

(** [task->operator()()] on the packaged task at [t]: runs the stored callable and
    makes the shared state ready with its value or its exception.  A
    packaged task that was already invoked throws [std::future_error]
    instead ([None]). *)
Definition invoke (t : nat) (h : list packaged_task) : option (list packaged_task) :=
  match h !! t with
  | Some pt =>
      match shared_state pt with
      | None => Some (<[t:=PackagedTask (stored_fn pt) (Some (stored_fn pt tt))]> h)
      | Some _ => None
      end
  | None => None
  end.

(** Line 113, [task()], run by worker [i] outside the lock.  Nothing in
    [workerThread] catches, so an exception leaving [task()] ends the
    thread abnormally. *)
Definition run_task (i t : nat) (p : ThreadPool) : ThreadPool :=
  match invoke t (heap p) with
  | Some h =>
      MkPool (<[i:=AtLoop]> (workers_ p)) (tasks_ p) (stop_ p) h
             (unnotified p) (dtor p) (dequeued p) (executed p ++ [t])
  | None => set_worker i Crashed p
  end.

(** One transition of worker [i]; [None] when the thread cannot move
    (asleep, finished, or no such thread). *)
Definition workerThread (i : nat) (p : ThreadPool) : option ThreadPool :=
  match workers_ p !! i with
  | Some AtLoop | Some Woken => Some (critical_section i p)
  | Some (Running t) => Some (run_task i t p)
  | Some Blocked | Some Terminated | Some Crashed | None => None
  end.

(** ** ~ThreadPool *)

(** One transition of the destroying thread: set [stop_] under the lock
    (lines 67-70), [notify_all] (line 71), then [join] the workers in order
    (lines 72-76); [join] blocks until the joined thread has finished. *)
Definition ThreadPool_dtor (p : ThreadPool) : option ThreadPool :=
  match dtor p with
  | Alive =>
      Some (MkPool (workers_ p) (tasks_ p) true (heap p) (unnotified p) StopSet
                   (dequeued p) (executed p))
  | StopSet =>
      Some (MkPool (wake <$> workers_ p) (tasks_ p) (stop_ p) (heap p)
                   (unnotified p) (Joining 0) (dequeued p) (executed p))
  | Joining k =>
      match workers_ p !! k with
      | Some Terminated =>
          Some (MkPool (workers_ p) (tasks_ p) (stop_ p) (heap p) (unnotified p)
                       (Joining (S k)) (dequeued p) (executed p))
      | Some _ => None
      | None =>
          Some (MkPool (workers_ p) (tasks_ p) (stop_ p) (heap p) (unnotified p)
                       Destroyed (dequeued p) (executed p))
      end
  | Destroyed => None
  end.

(** ** The transition system *)

Inductive label :=
| Submit (c : callable)      (* a caller runs lines 85-93 of [submit] *)
| NotifyOne (w : option nat) (* a caller runs line 94 of [submit] *)
| Work (i : nat)             (* worker [i] takes its next step *)
| Spurious (i : nat)         (* worker [i] wakes up without a notification *)
| Destroy.                   (* the destroying thread takes its next step *)

Definition is_destroyed (p : ThreadPool) : bool :=
  match dtor p with Destroyed => true | _ => false end.

(** A member function can only be called on a pool that still exists. *)
Definition step (p : ThreadPool) (l : label) : option ThreadPool :=
  match l with
  | Submit c => if is_destroyed p then None else Some (fst (submit c p))
  | NotifyOne w => notify_one w p
  | Work i => workerThread i p
  | Spurious i => spurious i p
  | Destroy => ThreadPool_dtor p
  end.

Fixpoint run (p : ThreadPool) (tr : list label) : option ThreadPool :=
  match tr with
  | [] => Some p
  | l :: tr' =>
      match step p l with
      | Some p' => run p' tr'
      | None => None
      end
  end.

(** The transitions the pool's own threads take once started: everything
    but a new [submit] call, a spurious wake-up and entering the
    destructor. *)
Definition internal (p : ThreadPool) (l : label) : bool :=
  match l with
  | Submit _ | Spurious _ => false
  | Destroy => match dtor p with Alive => false | _ => true end
  | NotifyOne _ | Work _ => true
  end.

Definition is_asleep_or_done (w : worker) : bool :=
  match w with Blocked | Terminated | Crashed => true | _ => false end.

(** No thread of the pool can move: every worker sleeps or has finished,
    no [notify_one] is owed and the destructor is not between its steps. *)
Definition quiescent (p : ThreadPool) : bool :=
  forallb is_asleep_or_done (workers_ p)
  && bool_decide (unnotified p = 0)
  && match dtor p with
     | Alive | Destroyed => true
     | StopSet => false
     | Joining k =>
         match workers_ p !! k with
         | Some Terminated | None => false
         | Some _ => true
         end
     end.

(** Ids of the tasks that workers hold between the pop and the call. *)
Definition running_of (w : worker) : list nat :=
  match w with Running t => [t] | _ => [] end.

Definition running (ws : list worker) : list nat :=
  ws ≫= running_of.

End Model.

Arguments Returned {V E}.
Arguments Threw {V E}.
Arguments bind {V E A} _ _ _ /.
Arguments PackagedTask {V E}.
Arguments stored_fn {V E}.
Arguments shared_state {V E}.
Arguments MkPool {V E}.
Arguments workers_ {V E}.
Arguments tasks_ {V E}.
Arguments stop_ {V E}.
Arguments heap {V E}.
Arguments unnotified {V E}.
Arguments dtor {V E}.
Arguments dequeued {V E}.
Arguments executed {V E}.
Arguments set_workers {V E}.
Arguments set_worker {V E}.
Arguments Ok {T}.
Arguments Fail {T}.
Arguments submit {V E}.
Arguments try_submit {V E}.
Arguments get {V E}.
Arguments notify_one {V E}.
Arguments spurious {V E}.
Arguments wait_pred {V E}.
Arguments critical_section {V E}.
Arguments invoke {V E}.
Arguments run_task {V E}.
Arguments workerThread {V E}.
Arguments ThreadPool_dtor {V E}.
Arguments Submit {V E}.
Arguments NotifyOne {V E}.
Arguments Work {V E}.
Arguments Spurious {V E}.
Arguments Destroy {V E}.
Arguments is_destroyed {V E}.
Arguments step {V E}.
Arguments run {V E}.
Arguments internal {V E}.
Arguments quiescent {V E}.

(** ** A caller with local variables

    [submit] forwards its arguments to [std::bind] (lines 85-87), which
    stores a decayed copy of each: for an argument passed by value the value
    it has at the call, for an argument [std::ref(x)] the
    [std::reference_wrapper], that is the variable and not its value.  When
    the bind object is invoked it passes a stored value as it is and a stored
    reference wrapper as the variable it refers to, read at that moment.

    A task may therefore read the caller's memory when a worker invokes it.
    The pool stores the task's outcome as a function of that memory, and the
    caller's side records the memory at the moment a worker invokes the
    task. *)

Section Callers.
Variables V E : Type.

Definition memory := nat → V.

(** An argument of [submit]: the local variable [x], or [std::ref(x)]. *)
Inductive arg :=
| ByValue (x : nat)
| ByRef (x : nat).

(** The variable an argument names. *)
Definition arg_var (a : arg) : nat :=
  match a with ByValue x | ByRef x => x end.

(** What the bind object holds for an argument. *)
Inductive stored_arg :=
| Copy (v : V)
| Ref (x : nat).

Definition decay_copy (mem : memory) (a : arg) : stored_arg :=
  match a with
  | ByValue x => Copy (mem x)
  | ByRef x => Ref x
  end.

(** What the bind object passes to the callable when it is invoked with the
    memory [mem]. *)
Definition unwrap (mem : memory) (s : stored_arg) : V :=
  match s with
  | Copy v => v
  | Ref x => mem x
  end.

(** The outcome of a task as a function of the memory at its invocation. *)
Definition deferred := memory → outcome V E.

(** Invoking the bind object of [f] and the stored argument [s]. *)
Definition call_with (f : V → outcome V E) (s : stored_arg)
    : outcome deferred Empty_set :=
  Returned (λ mem, f (unwrap mem s)).

Record caller := MkCaller {
  vars : memory;
  pool : ThreadPool deferred Empty_set;
  invoked_at : nat → option memory    (* the memory when task [t] was invoked *)
}.

Inductive caller_label :=
| CAssign (x : nat) (v : V)                 (* [x = v;] *)
| CSubmit (f : V → outcome V E) (a : arg)   (* [pool.submit(f, a)], lines 85-93 *)
| CPool (l : label deferred Empty_set).     (* any transition of the pool *)

(** The task whose [task()] call (line 113) the transition [l] performs. *)
Definition invoked_task (p : ThreadPool deferred Empty_set)
    (l : label deferred Empty_set) : option nat :=
  match l with
  | Work i =>
      match workers_ p !! i with
      | Some (Running t) => Some t
      | _ => None
      end
  | _ => None
  end.

Definition caller_step (c : caller) (l : caller_label) : option caller :=
  match l with
  | CAssign x v =>
      Some (MkCaller (λ y, if decide (y = x) then v else vars c y) (pool c)
                     (invoked_at c))
  | CSubmit f a =>
      match step (pool c) (Submit (bind (call_with f) (decay_copy (vars c) a))) with
      | Some p => Some (MkCaller (vars c) p (invoked_at c))
      | None => None
      end
  | CPool l =>
      match step (pool c) l with
      | Some p =>
          Some (MkCaller (vars c) p
                  (match invoked_task (pool c) l with
                   | Some t => λ u, if decide (u = t) then Some (vars c)
                                    else invoked_at c u
                   | None => invoked_at c
                   end))
      | None => None
      end
  end.

Fixpoint caller_run (c : caller) (tr : list caller_label) : option caller :=
  match tr with
  | [] => Some c
  | l :: tr' =>
      match caller_step c l with
      | Some c' => caller_run c' tr'
      | None => None
      end
  end.

(** [future.get()] as the caller sees it: the outcome the task computed from
    the memory it was invoked with. *)
Definition caller_get (c : caller) (fut : nat) : option (outcome V E) :=
  match get (pool c) fut, invoked_at c fut with
  | Some (Returned g), Some mem => Some (g mem)
  | _, _ => None
  end.

(** A caller that has constructed a pool of [n] workers and done nothing
    else. *)
Definition caller_init (mem : memory) (n : Z) : caller :=
  MkCaller mem (ThreadPool_ctor deferred Empty_set n) (λ _, None).

(** The memory of every executed task's invocation is on record. *)
Definition caller_inv (c : caller) : Prop :=
  ∀ t, t ∈ executed (pool c) → is_Some (invoked_at c t).

End Callers.

Arguments Copy {V}.
Arguments Ref {V}.
Arguments decay_copy {V}.
Arguments unwrap {V}.
Arguments call_with {V E}.
Arguments MkCaller {V E}.
Arguments vars {V E}.
Arguments pool {V E}.
Arguments invoked_at {V E}.
Arguments CAssign {V E}.
Arguments CSubmit {V E}.
Arguments CPool {V E}.
Arguments invoked_task {V E}.
Arguments caller_step {V E}.
Arguments caller_run {V E}.
Arguments caller_get {V E}.
Arguments caller_init {V E}.
Arguments caller_inv {V E}.

(** * Vocabulary of the properties *)

Section Vocabulary.
Context {V E : Type}.
Implicit Types (p : ThreadPool V E) (l : label V E) (tr : list (label V E)).

(** A worker that will take a step without being woken. *)
Definition awake (w : worker) : Prop := is_asleep_or_done w = false.

(** How often task [t] was invoked, and how often it was popped. *)
Definition invocations (t : nat) p : nat := count_occ Nat.eq_dec (executed p) t.
Definition dequeues (t : nat) p : nat := count_occ Nat.eq_dec (dequeued p).*2 t.

(** What holds of every pool reachable from the constructor. *)
Record Inv p : Prop := MkInv {
  (* tasks leave the queue in the order they entered it, and every task ever
     submitted is either dequeued or still queued *)
  inv_fifo : (dequeued p).*2 ++ tasks_ p = seq 0 (length (heap p));
  (* a dequeued task is held by a worker or has been executed *)
  inv_held : executed p ++ running (workers_ p) ≡ₚ (dequeued p).*2;
  (* the shared state is ready exactly for the executed tasks *)
  inv_ready : ∀ t pt, heap p !! t = Some pt →
    shared_state pt = if bool_decide (t ∈ executed p) then Some (stored_fn pt tt) else None;
  inv_no_crash : ∀ i, workers_ p !! i ≠ Some Crashed;
  inv_dequeuer : ∀ i t, (i, t) ∈ dequeued p → i < length (workers_ p);
  inv_stop : stop_ p = true ↔ dtor p ≠ Alive;
  inv_exit : ∀ i, workers_ p !! i = Some Terminated → stop_ p = true;
  (* after [notify_all] nobody sleeps any more *)
  inv_notified : (∀ k, dtor p = Joining k → ∀ i, workers_ p !! i ≠ Some Blocked)
                 ∧ (dtor p = Destroyed → ∀ i, workers_ p !! i ≠ Some Blocked);
  inv_joined : (∀ k, dtor p = Joining k → ∀ j, j < k → workers_ p !! j = Some Terminated)
               ∧ (dtor p = Destroyed → ∀ j w, workers_ p !! j = Some w → w = Terminated);
  (* no lost wake-up: a queued task has a thread that will look at it *)
  inv_wakeup : tasks_ p ≠ [] →
    (∃ i w, workers_ p !! i = Some w ∧ awake w) ∨ 0 < unnotified p
    ∨ (∀ i, workers_ p !! i ≠ Some Blocked)
}.

(** Some worker thread has not returned from [workerThread]. *)
Definition live (ws : list worker) : Prop :=
  ∃ i w, ws !! i = Some w ∧ w ≠ Terminated.

(** Task [t] has been dequeued, or it is queued while a worker is left to
    dequeue it. *)
Definition served (t : nat) p : Prop :=
  t ∈ (dequeued p).*2 ∨ (t ∈ tasks_ p ∧ live (workers_ p)).

(** A bound on the transitions the pool's own threads can still take: every
    internal transition lowers it. *)
Definition weight (w : worker) : nat :=
  match w with
  | Terminated | Crashed => 0
  | Blocked => 1
  | AtLoop | Woken => 2
  | Running _ => 3
  end.

Fixpoint total_weight (ws : list worker) : nat :=
  match ws with
  | [] => 0
  | w :: ws' => weight w + total_weight ws'
  end.

Definition dtor_weight (W : nat) (d : dtor_phase) : nat :=
  match d with
  | Alive => 2 * W + 3
  | StopSet => 2 * W + 2
  | Joining k => S (W - k)
  | Destroyed => 0
  end.

Definition measure p : nat :=
  total_weight (workers_ p) + 2 * length (tasks_ p) + 2 * unnotified p
  + dtor_weight (length (workers_ p)) (dtor p).

(** A run made of internal transitions only. *)
Fixpoint run_internal p tr : option (ThreadPool V E) :=
  match tr with
  | [] => Some p
  | l :: tr' =>
      if internal p l then
        match step p l with
        | Some p' => run_internal p' tr'
        | None => None
        end
      else None
  end.

(** Every worker thread has returned from [workerThread]. *)
Definition all_terminated p : Prop :=
  ∀ i w, workers_ p !! i = Some w → w = Terminated.

(** How many transitions of a run change [stop_]. *)
Fixpoint stop_changes p tr : nat :=
  match tr with
  | [] => 0
  | l :: tr' =>
      match step p l with
      | Some p' =>
          (if bool_decide (stop_ p' = stop_ p) then 0 else 1) + stop_changes p' tr'
      | None => 0
      end
  end.

(** Counting the enqueues and the [notify_one] calls of a run. *)
Definition is_submit l : bool :=
  match l with Submit _ => true | _ => false end.

Definition is_notify_one l : bool :=
  match l with NotifyOne _ => true | _ => false end.

Fixpoint count_labels (f : label V E → bool) tr : nat :=
  match tr with
  | [] => 0
  | l :: tr' => (if f l then 1 else 0) + count_labels f tr'
  end.

End Vocabulary.

(** ** The example driver *)

(** [add] and [multiply] of [thread_pool_example.cpp], and one interleaving
    of [main] on four workers.  The source computes in binary32; the values
    used are small integers, on which binary64 gives the same results. *)
Definition add (ab : float * float) : outcome float unit :=
  Returned (fst ab + snd ab)%float.
Definition multiply (ab : float * float) : outcome float unit :=
  Returned (fst ab * snd ab)%float.

Definition main_trace : list (label float unit) :=
  [Submit (bind add (1%float, 2%float)); NotifyOne None;
   Submit (bind multiply (3%float, 4%float)); Work 2; NotifyOne None;
   Work 0; Work 2; Work 0; Work 0; Work 2; Work 1; Work 3;
   Spurious 3; Work 3;
   Destroy; Destroy; Work 1; Work 2; Work 3; Work 0;
   Destroy; Destroy; Destroy; Destroy; Destroy].

(** The state reached by [tr] from [p] ([p] itself when [tr] cannot run). *)
Definition after {V E : Type} (p : ThreadPool V E) (tr : list (label V E)) : ThreadPool V E :=
  match run p tr with
  | Some p' => p'
  | None => p
  end.

Definition main_p1 : ThreadPool float unit := ThreadPool_ctor float unit 4.
Definition main_rest : list (label float unit) := tail main_trace.
Definition main_final : ThreadPool float unit := after main_p1 main_trace.

(** ** Further scenarios *)

Definition boom : callable nat nat := λ _, Threw 7.
Definition ok5 : callable nat nat := λ _, Returned 5.

(** One worker; the first task throws, a second one is submitted afterwards. *)
Definition boom_rest : list (label nat nat) :=
  [NotifyOne None; Work 0; Work 0; Submit ok5; NotifyOne None;
   Work 0; Work 0; Work 0].
Definition boom_final : ThreadPool nat nat :=
  after (submit boom (ThreadPool_ctor nat nat 1)).1 boom_rest.

(** Two workers, one task, then destruction: worker 0 holds the task while
    worker 1 finds the stop flag set and the queue empty. *)
Definition race_rest : list (label nat nat) :=
  [Work 0; Destroy; Destroy; Work 1].
Definition race_state : ThreadPool nat nat :=
  after (submit ok5 (ThreadPool_ctor nat nat 2)).1 race_rest.

(** The same pool destroyed to the end. *)
Definition shutdown_rest : list (label nat nat) :=
  [NotifyOne None; Work 0; Destroy; Destroy; Work 1; Work 0; Work 0;
   Destroy; Destroy; Destroy].
Definition shutdown_final : ThreadPool nat nat :=
  after (submit ok5 (ThreadPool_ctor nat nat 2)).1 shutdown_rest.

(** One worker that has already returned when a task is submitted. *)
Definition late_prefix : list (label nat nat) := [Destroy; Destroy; Work 0].
Definition late_p1 : ThreadPool nat nat :=
  MkPool [Terminated] [] true [] 0 (Joining 0) [] [].

(** A caller that overwrites its variable after the call to [submit], once
    passing the variable by value and once as [std::ref]. *)
Definition plus10 (v : nat) : outcome nat nat := Returned (v + 10).
Definition eager_c1 : caller nat nat := caller_init (λ _, 1) 1.
Definition eager_rest : list (caller_label nat nat) :=
  [CAssign 0 99; CPool (NotifyOne None); CPool (Work 0); CPool (Work 0);
   CPool (Work 0)].
Definition caller_after (c : caller nat nat) (tr : list (caller_label nat nat))
    : caller nat nat :=
  match caller_run c tr with
  | Some c' => c'
  | None => c
  end.
Definition eager_c3 : caller nat nat :=
  caller_after eager_c1 (CSubmit plus10 (ByValue 0) :: eager_rest).
Definition lazy_c3 : caller nat nat :=
  caller_after eager_c1 (CSubmit plus10 (ByRef 0) :: eager_rest).

(** * Properties *)

(** ** Worker lists *)

Lemma running_insert (ws : list worker) (i : nat) (w0 w : worker) :
  ws !! i = Some w0 →
  ∃ rest, running ws ≡ₚ running_of w0 ++ rest
          ∧ running (<[i:=w]> ws) ≡ₚ running_of w ++ rest.
Proof.
  intros Hi.
  exists (running (take i ws) ++ running (drop (S i) ws)).
  assert (Hlt : i < length ws) by (eapply lookup_lt_Some; eauto).
  split.
  - rewrite <- (take_drop_middle ws i w0 Hi) at 1.
    unfold running. rewrite bind_app, bind_cons.
    rewrite !app_assoc. apply Permutation_app_tail, Permutation_app_comm.
  - rewrite (insert_take_drop ws i w Hlt).
    unfold running. rewrite bind_app, bind_cons.
    rewrite !app_assoc. apply Permutation_app_tail, Permutation_app_comm.
Qed.

Lemma running_insert_idle (ws : list worker) (i : nat) (w0 w : worker) :
  ws !! i = Some w0 → running_of w0 = [] → running_of w = [] →
  running (<[i:=w]> ws) ≡ₚ running ws.
Proof.
  intros Hi H0 H1. destruct (running_insert ws i w0 w Hi) as (rest & Ha & Hb).
  rewrite H0 in Ha. rewrite H1 in Hb. by rewrite Ha, Hb.
Qed.

Lemma running_wake (ws : list worker) : running (wake <$> ws) = running ws.
Proof.
  unfold running. induction ws as [|w ws IH]; [done|].
  rewrite fmap_cons, !bind_cons, IH. by destruct w.
Qed.

Lemma running_all_idle (ws : list worker) :
  (∀ i w, ws !! i = Some w → running_of w = []) → running ws = [].
Proof.
  unfold running. induction ws as [|w ws IH]; intros H; [done|].
  rewrite bind_cons, (H 0 w eq_refl), IH; [done|].
  intros i w' Hi. apply (H (S i) w' Hi).
Qed.

Lemma lookup_wake (ws : list worker) (i : nat) (w : worker) :
  (wake <$> ws) !! i = Some w → w ≠ Blocked ∧ ∃ w0, ws !! i = Some w0 ∧ w = wake w0.
Proof.
  rewrite list_lookup_fmap. destruct (ws !! i) as [w0|] eqn:Hi; [|done].
  intros [= <-]. split; [by destruct w0 | eauto].
Qed.

Lemma forallb_not_blocked (ws : list worker) :
  forallb (λ x, negb (is_blocked x)) ws = true ↔ ∀ i, ws !! i ≠ Some Blocked.
Proof.
  rewrite forallb_forall. split.
  - intros H i Hi. apply list_elem_of_lookup_2, list_elem_of_In, H in Hi. done.
  - intros H w Hw. apply list_elem_of_In, list_elem_of_lookup in Hw as [i Hi].
    destruct w; try done. by apply H in Hi.
Qed.

Lemma forallb_asleep (ws : list worker) :
  forallb is_asleep_or_done ws = true ↔ ∀ i w, ws !! i = Some w → ¬ awake w.
Proof.
  rewrite forallb_forall. unfold awake. split.
  - intros H i w Hi. apply list_elem_of_lookup_2, list_elem_of_In, H in Hi. congruence.
  - intros H w Hw. apply list_elem_of_In, list_elem_of_lookup in Hw as [i Hi].
    apply H in Hi. by destruct (is_asleep_or_done w).
Qed.

(** ** The invariant of reachable pools *)

Section Invariant.
Context {V E : Type}.
Implicit Types (p : ThreadPool V E) (l : label V E) (tr : list (label V E)).

Lemma Inv_ctor (n : Z) : Inv (ThreadPool_ctor V E n).
Proof.
  split; simpl; try done.
  - rewrite running_all_idle; [done|].
    intros i w [-> _]%lookup_replicate. done.
  - intros i [? _]%lookup_replicate. done.
  - intros i t H. by apply not_elem_of_nil in H.
  - intros i [? _]%lookup_replicate. done.
Qed.

Lemma Inv_dequeued_NoDup p : Inv p → NoDup (dequeued p).*2.
Proof.
  intros HI. pose proof (NoDup_seq 0 (length (heap p))) as H.
  rewrite <- (inv_fifo p HI) in H. by apply NoDup_app in H as (? & _ & _).
Qed.

Lemma Inv_executed_NoDup p : Inv p → NoDup (executed p).
Proof.
  intros HI. pose proof (Inv_dequeued_NoDup p HI) as H.
  rewrite <- (inv_held p HI) in H. by apply NoDup_app in H as (? & _ & _).
Qed.

Lemma Inv_dequeued_lt p t : Inv p → t ∈ (dequeued p).*2 → t < length (heap p).
Proof.
  intros HI Ht.
  assert (t ∈ seq 0 (length (heap p))) as H%elem_of_seq; [|lia].
  rewrite <- (inv_fifo p HI). apply elem_of_app. by left.
Qed.

Lemma Inv_executed_dequeued p t : Inv p → t ∈ executed p → t ∈ (dequeued p).*2.
Proof.
  intros HI Ht. rewrite <- (inv_held p HI). apply elem_of_app. by left.
Qed.

Lemma Inv_queued_lt p t : Inv p → t ∈ tasks_ p → t < length (heap p).
Proof.
  intros HI Ht.
  assert (t ∈ seq 0 (length (heap p))) as H%elem_of_seq; [|lia].
  rewrite <- (inv_fifo p HI). apply elem_of_app. by right.
Qed.

Lemma Inv_submit c p : Inv p → Inv (submit c p).1.
Proof.
  intros HI. pose proof (Inv_executed_dequeued p) as Hed.
  pose proof (Inv_dequeued_lt p) as Hdl.
  destruct HI as [Hfifo Hheld Hready Hcr Hdq Hstop Hexit Hnot Hjoin Hwk].
  split; simpl; try done.
  - rewrite length_app, app_assoc, Hfifo. simpl.
    by rewrite Nat.add_1_r, seq_S.
  - intros t pt [Ht|[Hlen Ht]]%lookup_app_Some; [by apply Hready|].
    destruct (decide (t - length (heap p) = 0)) as [Hz|Hz];
      [rewrite Hz in Ht | by destruct (t - length (heap p))].
    injection Ht as <-. simpl.
    rewrite bool_decide_eq_false_2; [done|].
    intros Hin. apply Hed, Hdl in Hin; [lia | by split | by split].
  - intros _. right. left. lia.
Qed.

Lemma Inv_wake_one i p :
  Inv p → workers_ p !! i = Some Blocked → Inv (set_worker i Woken p).
Proof.
  intros [Hfifo Hheld Hready Hcr Hdq Hstop Hexit Hnot Hjoin Hwk] Hi.
  assert (Hlt : i < length (workers_ p)) by (eapply lookup_lt_Some; eauto).
  split; simpl; try done.
  - by rewrite (running_insert_idle _ i Blocked Woken).
  - intros j [(_ & ? & _)|(_ & Hj)]%list_lookup_insert_Some; [done|by apply Hcr in Hj].
  - intros j t Hjt. rewrite length_insert. eauto.
  - intros j [(_ & ? & _)|(_ & Hj)]%list_lookup_insert_Some; [done|eauto].
  - destruct Hnot as [Hn1 Hn2]. split.
    + intros k Hk. by apply (Hn1 k Hk) in Hi.
    + intros Hk. by apply (Hn2 Hk) in Hi.
  - destruct Hjoin as [Hj1 Hj2]. split.
    + intros k Hk j Hjk. destruct (decide (i = j)) as [->|Hne].
      * rewrite (Hj1 k Hk j Hjk) in Hi. done.
      * rewrite list_lookup_insert_ne; eauto.
    + intros Hk. by apply (Hj2 Hk) in Hi.
  - intros _. left. exists i, Woken. by rewrite list_lookup_insert_eq.
Qed.

Lemma Inv_notify_one w p p' : Inv p → notify_one w p = Some p' → Inv p'.
Proof.
  intros HI. unfold notify_one.
  destruct (unnotified p) as [|n] eqn:Hun; [done|].
  destruct w as [i|].
  - destruct (workers_ p !! i) as [[]|] eqn:Hi; try done. intros [= <-].
    pose proof (Inv_wake_one i p HI Hi) as [Hfifo Hheld Hready Hcr Hdq Hstop Hexit Hnot Hjoin Hwk].
    split; try done. simpl in *.
    intros _. left. exists i, Woken. rewrite list_lookup_insert_eq; [done|].
    eapply lookup_lt_Some; eauto.
  - destruct (forallb _ _) eqn:Hfa; [|done]. intros [= <-].
    pose proof (proj1 (forallb_not_blocked _) Hfa) as Hnb.
    destruct HI as [Hfifo Hheld Hready Hcr Hdq Hstop Hexit Hnot Hjoin Hwk].
    split; try done. simpl. intros _. by right; right.
Qed.

Lemma Inv_spurious i p p' : Inv p → spurious i p = Some p' → Inv p'.
Proof.
  intros HI. unfold spurious.
  destruct (workers_ p !! i) as [[]|] eqn:Hi; try done. intros [= <-].
  by apply Inv_wake_one.
Qed.

Lemma Inv_critical_section i w0 p :
  Inv p → workers_ p !! i = Some w0 → w0 = AtLoop ∨ w0 = Woken →
  Inv (critical_section i p).
Proof.
  intros [Hfifo Hheld Hready Hcr Hdq Hstop Hexit Hnot Hjoin Hwk] Hi Hw0.
  assert (Hlt : i < length (workers_ p)) by (eapply lookup_lt_Some; eauto).
  assert (Hidle : running_of w0 = []) by (by destruct Hw0 as [-> | ->]).
  assert (Hnt : w0 ≠ Terminated) by (by destruct Hw0 as [-> | ->]).
  destruct Hnot as [Hn1 Hn2]. destruct Hjoin as [Hj1 Hj2].
  unfold critical_section, wait_pred.
  destruct (stop_ p) eqn:Hst; simpl.
  - (* stop_ is set: the worker exits or takes the front task *)
    destruct (tasks_ p) as [|t q] eqn:Hq; simpl.
    + split; simpl; rewrite ?Hq, ?Hst; try done.
      * by rewrite (running_insert_idle _ i w0 Terminated).
      * intros j [(_ & ? & _)|(_ & Hj)]%list_lookup_insert_Some; [done|by apply Hcr in Hj].
      * intros j t Hjt. rewrite length_insert. eauto.
      * split.
        -- intros k Hk j [(_ & ? & _)|(_ & Hj)]%list_lookup_insert_Some;
             [done|by apply (Hn1 k Hk) in Hj].
        -- intros Hk j [(_ & ? & _)|(_ & Hj)]%list_lookup_insert_Some;
             [done|by apply (Hn2 Hk) in Hj].
      * split.
        -- intros k Hk j Hjk. destruct (decide (i = j)) as [->|Hne].
           ++ by rewrite list_lookup_insert_eq.
           ++ rewrite list_lookup_insert_ne; eauto.
        -- intros Hk j w [(_ & ? & _)|(_ & Hj)]%list_lookup_insert_Some; eauto.
    + destruct (running_insert (workers_ p) i w0 (Running t) Hi) as (rest & Ha & Hb).
      rewrite Hidle in Ha. simpl in Ha, Hb.
      split; simpl; rewrite ?Hst; try done.
      * rewrite fmap_app, <- app_assoc. simpl. by rewrite <- Hfifo.
      * rewrite fmap_app, Hb. simpl. rewrite <- Hheld, Ha.
        rewrite <- Permutation_middle, <- Permutation_cons_append. done.
      * intros j [(_ & ? & _)|(_ & Hj)]%list_lookup_insert_Some; [done|by apply Hcr in Hj].
      * intros j t' [Hjt|Hjt%list_elem_of_singleton]%elem_of_app; rewrite length_insert.
        -- eauto.
        -- by injection Hjt as -> ->.
      * split.
        -- intros k Hk j [(_ & ? & _)|(_ & Hj)]%list_lookup_insert_Some;
             [done|by apply (Hn1 k Hk) in Hj].
        -- intros Hk j [(_ & ? & _)|(_ & Hj)]%list_lookup_insert_Some;
             [done|by apply (Hn2 Hk) in Hj].
      * split.
        -- intros k Hk j Hjk. destruct (decide (i = j)) as [->|Hne].
           ++ rewrite (Hj1 k Hk j Hjk) in Hi. congruence.
           ++ rewrite list_lookup_insert_ne; eauto.
        -- intros Hk. apply (Hj2 Hk) in Hi. done.
      * intros _. left. exists i, (Running t). by rewrite list_lookup_insert_eq.
  - (* stop_ is clear *)
    assert (Hal : dtor p = Alive).
    { destruct (dtor p) eqn:Hd; try done; by assert (false = true) by (by apply Hstop). }
    destruct (tasks_ p) as [|t q] eqn:Hq; simpl.
    + (* empty queue: the worker goes to sleep *)
      split; simpl; rewrite ?Hq, ?Hst, ?Hal; try done.
      * by rewrite (running_insert_idle _ i w0 Blocked).
      * intros j [(_ & ? & _)|(_ & Hj)]%list_lookup_insert_Some; [done|by apply Hcr in Hj].
      * intros j t Hjt. rewrite length_insert. eauto.
      * intros j [(_ & ? & _)|(_ & Hj)]%list_lookup_insert_Some; [done|eauto].
    + destruct (running_insert (workers_ p) i w0 (Running t) Hi) as (rest & Ha & Hb).
      rewrite Hidle in Ha. simpl in Ha, Hb.
      split; simpl; rewrite ?Hst, ?Hal; try done.
      * rewrite fmap_app, <- app_assoc. simpl. by rewrite <- Hfifo.
      * rewrite fmap_app, Hb. simpl. rewrite <- Hheld, Ha.
        rewrite <- Permutation_middle, <- Permutation_cons_append. done.
      * intros j [(_ & ? & _)|(_ & Hj)]%list_lookup_insert_Some; [done|by apply Hcr in Hj].
      * intros j t' [Hjt|Hjt%list_elem_of_singleton]%elem_of_app; rewrite length_insert.
        -- eauto.
        -- by injection Hjt as -> ->.
      * intros j [(_ & ? & _)|(_ & Hj)]%list_lookup_insert_Some; [done|eauto].
      * intros _. left. exists i, (Running t). by rewrite list_lookup_insert_eq.
Qed.

(** A task held by a worker has not been invoked yet, so invoking it does not
    throw. *)
Lemma Inv_held_fresh i t p :
  Inv p → workers_ p !! i = Some (Running t) →
  (t ∉ executed p) ∧ (∃ pt, heap p !! t = Some pt ∧ shared_state pt = None).
Proof.
  intros HI Hi.
  destruct (running_insert (workers_ p) i (Running t) AtLoop Hi) as (rest & Ha & _).
  simpl in Ha.
  pose proof (Inv_dequeued_NoDup p HI) as Hnd.
  rewrite <- (inv_held p HI), Ha in Hnd.
  apply NoDup_app in Hnd as (_ & Hdis & _).
  assert (Hne : t ∉ executed p).
  { intros Hin. apply (Hdis t Hin). by left. }
  split; [done|].
  assert (Hlt : t < length (heap p)).
  { apply Inv_dequeued_lt; [done|]. rewrite <- (inv_held p HI), Ha.
    apply elem_of_app. right. by left. }
  destruct (lookup_lt_is_Some_2 _ _ Hlt) as [pt Hpt].
  exists pt. split; [done|].
  rewrite (inv_ready p HI t pt Hpt). by rewrite bool_decide_eq_false_2.
Qed.

Lemma Inv_run_task i t p :
  Inv p → workers_ p !! i = Some (Running t) → Inv (run_task i t p).
Proof.
  intros HI Hi.
  destruct (Inv_held_fresh i t p HI Hi) as (Hne & pt & Hpt & Hss).
  destruct (running_insert (workers_ p) i (Running t) AtLoop Hi) as (rest & Ha & Hb).
  simpl in Ha, Hb.
  destruct HI as [Hfifo Hheld Hready Hcr Hdq Hstop Hexit [Hn1 Hn2] [Hj1 Hj2] Hwk].
  assert (Hlt : i < length (workers_ p)) by (eapply lookup_lt_Some; eauto).
  unfold run_task, invoke. rewrite Hpt, Hss.
  split; simpl; try done.
  - by rewrite length_insert.
  - rewrite Hb, <- Hheld, Ha, <- app_assoc. done.
  - intros t' pt' [(<- & <- & _)|(Hne' & Ht')]%list_lookup_insert_Some; simpl.
    + rewrite bool_decide_eq_true_2; [done|]. apply elem_of_app. right. by left.
    + rewrite (Hready t' pt' Ht').
      destruct (decide (t' ∈ executed p)) as [Hin|Hin].
      * rewrite !bool_decide_eq_true_2; [done| |done]. apply elem_of_app. by left.
      * rewrite !bool_decide_eq_false_2; [done| |done].
        intros [?|?%list_elem_of_singleton]%elem_of_app; congruence.
  - intros j [(_ & ? & _)|(_ & Hj)]%list_lookup_insert_Some; [done|by apply Hcr in Hj].
  - intros j t' Hjt. rewrite length_insert. eauto.
  - intros j [(_ & ? & _)|(_ & Hj)]%list_lookup_insert_Some; [done|eauto].
  - split.
    + intros k Hk j [(_ & ? & _)|(_ & Hj)]%list_lookup_insert_Some;
        [done|by apply (Hn1 k Hk) in Hj].
    + intros Hk j [(_ & ? & _)|(_ & Hj)]%list_lookup_insert_Some;
        [done|by apply (Hn2 Hk) in Hj].
  - split.
    + intros k Hk j Hjk. destruct (decide (i = j)) as [->|Hne'].
      * rewrite (Hj1 k Hk j Hjk) in Hi. congruence.
      * rewrite list_lookup_insert_ne; eauto.
    + intros Hk. apply (Hj2 Hk) in Hi. done.
  - intros _. left. exists i, AtLoop. by rewrite list_lookup_insert_eq.
Qed.

Lemma Inv_workerThread i p p' : Inv p → workerThread i p = Some p' → Inv p'.
Proof.
  intros HI. unfold workerThread.
  destruct (workers_ p !! i) as [w|] eqn:Hi; [|done].
  destruct w; try done; intros [= <-].
  - eapply Inv_critical_section; eauto.
  - eapply Inv_critical_section; eauto.
  - by apply Inv_run_task.
Qed.

Lemma Inv_dtor p p' : Inv p → ThreadPool_dtor p = Some p' → Inv p'.
Proof.
  intros [Hfifo Hheld Hready Hcr Hdq Hstop Hexit [Hn1 Hn2] [Hj1 Hj2] Hwk].
  unfold ThreadPool_dtor. destruct (dtor p) as [| |k|] eqn:Hd; [| | |done].
  - intros [= <-]. split; simpl; try done.
  - intros [= <-].
    assert (Hst : stop_ p = true) by (by apply Hstop).
    split; simpl; try done.
    + by rewrite running_wake.
    + intros j Hj. apply lookup_wake in Hj as (_ & w0 & Hw0 & Heq).
      destruct w0; try done. by apply Hcr in Hw0.
    + intros j t Hjt. rewrite length_fmap. eauto.
    + split; [|done]. intros k _ j Hj. by apply lookup_wake in Hj as (? & _).
    + split; [|done]. intros k [= <-] j Hj. lia.
    + intros _. right; right. intros j Hj. by apply lookup_wake in Hj as (? & _).
  - assert (Hst : stop_ p = true) by (by apply Hstop).
    destruct (workers_ p !! k) as [w|] eqn:Hk.
    + destruct w; try done. intros [= <-].
      split; simpl; try done.
      * split; [|done]. intros k' _. by apply (Hn1 k).
      * split; [|done]. intros k' [= <-] j Hj.
        destruct (decide (j = k)) as [->|Hne]; [done|]. apply (Hj1 k); [done|lia].
    + intros [= <-]. apply lookup_ge_None in Hk.
      split; simpl; try done.
      * split; [done|]. intros _. by apply (Hn1 k).
      * split; [done|]. intros _ j w Hj.
        assert (Hlt : j < k) by (apply lookup_lt_Some in Hj; lia).
        rewrite (Hj1 k eq_refl j Hlt) in Hj. congruence.
Qed.

Lemma Inv_step p l p' : Inv p → step p l = Some p' → Inv p'.
Proof.
  intros HI. destruct l as [c|w|i|i|]; simpl.
  - destruct (is_destroyed p); [done|]. intros [= <-]. by apply Inv_submit.
  - by apply Inv_notify_one.
  - by apply Inv_workerThread.
  - by apply Inv_spurious.
  - by apply Inv_dtor.
Qed.

Lemma Inv_run tr : ∀ p p', Inv p → run p tr = Some p' → Inv p'.
Proof.
  induction tr as [|l tr IH]; intros p p' HI; simpl.
  - by intros [= <-].
  - destruct (step p l) as [p1|] eqn:Hs; [|done].
    apply IH. by eapply Inv_step.
Qed.

Lemma Inv_reachable (n : Z) tr p : run (ThreadPool_ctor V E n) tr = Some p → Inv p.
Proof. apply Inv_run, Inv_ctor. Qed.

Lemma run_app tr1 tr2 p :
  run p (tr1 ++ tr2) = match run p tr1 with Some p1 => run p1 tr2 | None => None end.
Proof.
  revert p. induction tr1 as [|l tr1 IH]; intros p; simpl; [done|].
  destruct (step p l); [apply IH|done].
Qed.

(** ** Every task that a live worker can still see gets served *)

Lemma live_insert (ws : list worker) i w :
  live ws → w ≠ Terminated → live (<[i:=w]> ws).
Proof.
  intros (j & w0 & Hj & Hw0) Hw. destruct (decide (i = j)) as [->|Hne].
  - exists j, w. split; [|done]. apply list_lookup_insert_eq.
    eapply lookup_lt_Some; eauto.
  - exists j, w0. by rewrite list_lookup_insert_ne.
Qed.

Lemma live_insert_self (ws : list worker) i w :
  i < length ws → w ≠ Terminated → live (<[i:=w]> ws).
Proof. intros Hi Hw. exists i, w. by rewrite list_lookup_insert_eq. Qed.

Lemma live_wake (ws : list worker) : live ws → live (wake <$> ws).
Proof.
  intros (j & w0 & Hj & Hw0). exists j, (wake w0).
  rewrite list_lookup_fmap, Hj. split; [done|]. by destruct w0.
Qed.

Lemma served_step t p l p' : step p l = Some p' → served t p → served t p'.
Proof.
  intros Hs [Hd|[Hq Hl]].
  - (* already dequeued: [dequeued] only grows *)
    left. destruct l as [c|w|i|i|]; simpl in Hs.
    + destruct (is_destroyed p); [done|]. by injection Hs as <-.
    + unfold notify_one in Hs. destruct (unnotified p); [done|].
      destruct w as [i|].
      * destruct (workers_ p !! i) as [[]|]; try done. by injection Hs as <-.
      * destruct (forallb _ _); [|done]. by injection Hs as <-.
    + unfold workerThread in Hs. destruct (workers_ p !! i) as [[]|]; try done;
        injection Hs as <-; unfold critical_section, run_task.
      * destruct (negb _); [done|]. destruct (_ && _); [done|].
        destruct (tasks_ p); [done|]. simpl. rewrite fmap_app, elem_of_app. by left.
      * destruct (negb _); [done|]. destruct (_ && _); [done|].
        destruct (tasks_ p); [done|]. simpl. rewrite fmap_app, elem_of_app. by left.
      * by destruct (invoke _ _).
    + unfold spurious in Hs. destruct (workers_ p !! i) as [[]|]; try done.
      by injection Hs as <-.
    + unfold ThreadPool_dtor in Hs. destruct (dtor p); try done.
      * by injection Hs as <-.
      * by injection Hs as <-.
      * destruct (workers_ p !! k) as [[]|]; try done; by injection Hs as <-.
  - (* still queued, and a worker is left *)
    destruct l as [c|w|i|i|]; simpl in Hs.
    + destruct (is_destroyed p); [done|]. injection Hs as <-. right. simpl.
      split; [|done]. apply elem_of_app. by left.
    + unfold notify_one in Hs. destruct (unnotified p); [done|].
      destruct w as [i|].
      * destruct (workers_ p !! i) as [[]|]; try done. injection Hs as <-.
        right. simpl. split; [done|]. by apply live_insert.
      * destruct (forallb _ _); [|done]. injection Hs as <-. by right.
    + unfold workerThread in Hs.
      destruct (workers_ p !! i) as [w|] eqn:Hi; [|done].
      assert (Hlt : i < length (workers_ p)) by (eapply lookup_lt_Some; eauto).
      assert (Hcs : served t (critical_section i p)).
      { unfold critical_section. destruct (negb _).
        { right. simpl. split; [done|]. by apply live_insert. }
        destruct (tasks_ p) as [|t0 q] eqn:Hq0; [by apply not_elem_of_nil in Hq|].
        rewrite andb_false_r.
        apply elem_of_cons in Hq as [->|Hq].
        - left. simpl. rewrite fmap_app, elem_of_app. right. by left.
        - right. simpl. split; [done|]. by apply live_insert_self. }
      destruct w; try done; injection Hs as <-; try done.
      unfold run_task. destruct (invoke _ _).
      * right. simpl. split; [done|]. by apply live_insert_self.
      * right. simpl. split; [done|]. by apply live_insert_self.
    + unfold spurious in Hs. destruct (workers_ p !! i) as [[]|]; try done.
      injection Hs as <-. right. simpl. split; [done|]. by apply live_insert.
    + unfold ThreadPool_dtor in Hs. destruct (dtor p); try done.
      * injection Hs as <-. by right.
      * injection Hs as <-. right. simpl. split; [done|]. by apply live_wake.
      * destruct (workers_ p !! k) as [[]|]; try done; injection Hs as <-; by right.
Qed.

Lemma served_run tr : ∀ t p p', run p tr = Some p' → served t p → served t p'.
Proof.
  induction tr as [|l tr IH]; intros t p p'; simpl.
  - by intros [= <-].
  - destruct (step p l) as [p1|] eqn:Hs; [|done].
    intros Hr Hsv. eapply IH; [done|]. by eapply served_step.
Qed.

(** The callable stored in a packaged task never changes. *)
Lemma stored_fn_step t pt p l p' :
  step p l = Some p' → heap p !! t = Some pt →
  ∃ pt', heap p' !! t = Some pt' ∧ stored_fn pt' = stored_fn pt.
Proof.
  intros Hs Ht. destruct l as [c|w|i|i|]; simpl in Hs.
  - destruct (is_destroyed p); [done|]. injection Hs as <-. simpl.
    exists pt. split; [|done]. by apply lookup_app_l_Some.
  - unfold notify_one in Hs. destruct (unnotified p); [done|].
    destruct w as [i|].
    + destruct (workers_ p !! i) as [[]|]; try done. injection Hs as <-. eauto.
    + destruct (forallb _ _); [|done]. injection Hs as <-. eauto.
  - unfold workerThread in Hs. destruct (workers_ p !! i) as [[]|]; try done;
      injection Hs as <-; unfold critical_section, run_task.
    + destruct (negb _); [eauto|]. destruct (_ && _); [eauto|].
      destruct (tasks_ p); eauto.
    + destruct (negb _); [eauto|]. destruct (_ && _); [eauto|].
      destruct (tasks_ p); eauto.
    + unfold invoke. destruct (heap p !! task) as [pt0|] eqn:H0; [|eauto].
      destruct (shared_state pt0); [eauto|]. simpl.
      destruct (decide (task = t)) as [->|Hne].
      * rewrite list_lookup_insert_eq; [|by eapply lookup_lt_Some].
        eexists. split; [done|]. simpl. congruence.
      * rewrite list_lookup_insert_ne; eauto.
  - unfold spurious in Hs. destruct (workers_ p !! i) as [[]|]; try done.
    injection Hs as <-. eauto.
  - unfold ThreadPool_dtor in Hs. destruct (dtor p); try done.
    + injection Hs as <-. eauto.
    + injection Hs as <-. eauto.
    + destruct (workers_ p !! k) as [[]|]; try done; injection Hs as <-; eauto.
Qed.

Lemma stored_fn_run tr : ∀ t pt p p',
  run p tr = Some p' → heap p !! t = Some pt →
  ∃ pt', heap p' !! t = Some pt' ∧ stored_fn pt' = stored_fn pt.
Proof.
  induction tr as [|l tr IH]; intros t pt p p'; simpl.
  - intros [= <-]. eauto.
  - destruct (step p l) as [p1|] eqn:Hs; [|done].
    intros Hr Ht. destruct (stored_fn_step t pt p l p1 Hs Ht) as (pt1 & H1 & Hf1).
    destruct (IH t pt1 p1 p' Hr H1) as (pt' & H' & Hf'). exists pt'. split; congruence.
Qed.

(** ** Pools at rest *)

Lemma quiescent_spec p :
  quiescent p = true →
  (∀ i w, workers_ p !! i = Some w → ¬ awake w) ∧ unnotified p = 0
  ∧ dtor p ≠ StopSet.
Proof.
  unfold quiescent. intros [[Hw Hu%bool_decide_eq_true]%andb_prop Hd]%andb_prop.
  split; [by apply forallb_asleep|]. split; [done|].
  intros Heq. by rewrite Heq in Hd.
Qed.

Lemma quiescent_no_running p : quiescent p = true → running (workers_ p) = [].
Proof.
  intros (Hw & _)%quiescent_spec. apply running_all_idle.
  intros i w Hi. specialize (Hw i w Hi). unfold awake in Hw. by destruct w.
Qed.

Lemma quiescent_served t p :
  Inv p → quiescent p = true → served t p → t ∈ executed p.
Proof.
  intros HI Hq Hs.
  assert (Hd : t ∈ (dequeued p).*2).
  { destruct Hs as [Hd|[Hin (i & w & Hi & Hw)]]; [done|]. exfalso.
    destruct (quiescent_spec p Hq) as (Hsl & Hun & _).
    assert (Hb : w = Blocked).
    { specialize (Hsl i w Hi). unfold awake in Hsl. destruct w; try done.
      by apply (inv_no_crash p HI) in Hi. }
    subst w. destruct (inv_wakeup p HI) as [(j & w & Hj & Hw')|[Hlt|Hnb]].
    - intros Hnil. rewrite Hnil in Hin. by apply not_elem_of_nil in Hin.
    - by apply (Hsl j w Hj).
    - lia.
    - by apply (Hnb i). }
  rewrite <- (inv_held p HI), (quiescent_no_running p Hq), app_nil_r in Hd. done.
Qed.

Lemma get_sound p t r :
  Inv p → get p t = Some r →
  t ∈ executed p ∧ ∃ pt, heap p !! t = Some pt ∧ r = stored_fn pt tt.
Proof.
  intros HI. unfold get. destruct (heap p !! t) as [pt|] eqn:Ht; [|done].
  rewrite (inv_ready p HI t pt Ht). case_bool_decide; [|done].
  intros [= <-]. eauto.
Qed.

Lemma get_executed p t pt :
  Inv p → heap p !! t = Some pt → t ∈ executed p → get p t = Some (stored_fn pt tt).
Proof.
  intros HI Ht Hex. unfold get. rewrite Ht, (inv_ready p HI t pt Ht).
  by rewrite bool_decide_eq_true_2.
Qed.

Lemma get_pending p t : Inv p → t ∉ executed p → get p t = None.
Proof.
  intros HI Hex. unfold get. destruct (heap p !! t) as [pt|] eqn:Ht; [|done].
  rewrite (inv_ready p HI t pt Ht). by rewrite bool_decide_eq_false_2.
Qed.

(** ** The pool's own threads cannot run forever *)

Lemma weight_insert (ws : list worker) i w0 w :
  ws !! i = Some w0 →
  total_weight (<[i:=w]> ws) + weight w0 = total_weight ws + weight w.
Proof.
  revert i. induction ws as [|x ws IH]; intros [|i] Hi; simpl in *; try done.
  - injection Hi as ->. lia.
  - specialize (IH i Hi). lia.
Qed.

Lemma weight_wake (ws : list worker) :
  total_weight (wake <$> ws) ≤ total_weight ws + length ws.
Proof.
  induction ws as [|x ws IH]; [done|]. rewrite fmap_cons.
  destruct x; cbn [wake weight total_weight length]; lia.
Qed.

Lemma internal_step_decreases p l p' :
  step p l = Some p' → internal p l = true → measure p' < measure p.
Proof.
  intros Hs Hint. unfold measure. destruct l as [c|w|i|i|]; simpl in *; try done.
  - unfold notify_one in Hs. destruct (unnotified p) as [|n]; [done|].
    destruct w as [i|].
    + destruct (workers_ p !! i) as [w|] eqn:Hi; [|done].
      destruct w; try done. injection Hs as <-. simpl.
      pose proof (weight_insert _ i Blocked Woken Hi) as Hw. simpl in Hw.
      rewrite length_insert. lia.
    + destruct (forallb _ _); [|done]. injection Hs as <-. simpl. lia.
  - unfold workerThread in Hs. destruct (workers_ p !! i) as [w|] eqn:Hi; [|done].
    assert (Hcs : weight w = 2 →
      total_weight (workers_ (critical_section i p))
      + 2 * length (tasks_ (critical_section i p))
      + 2 * unnotified (critical_section i p)
      + dtor_weight (length (workers_ (critical_section i p))) (dtor (critical_section i p))
      < total_weight (workers_ p) + 2 * length (tasks_ p) + 2 * unnotified p
        + dtor_weight (length (workers_ p)) (dtor p)).
    { intros Hw2. unfold critical_section. destruct (negb _).
      { pose proof (weight_insert _ i w Blocked Hi) as Hw. simpl in *.
        rewrite length_insert. lia. }
      destruct (_ && _).
      { pose proof (weight_insert _ i w Terminated Hi) as Hw. simpl in *.
        rewrite length_insert. lia. }
      destruct (tasks_ p) as [|t q] eqn:Hq.
      - pose proof (weight_insert _ i w Crashed Hi) as Hw. simpl in *.
        rewrite length_insert, ?Hq. simpl. lia.
      - pose proof (weight_insert _ i w (Running t) Hi) as Hw. simpl in *.
        rewrite length_insert. lia. }
    destruct w; try done; injection Hs as <-; try (by apply Hcs).
    unfold run_task. destruct (invoke _ _).
    + pose proof (weight_insert _ i (Running task) AtLoop Hi) as Hw. simpl in *.
      rewrite length_insert. lia.
    + pose proof (weight_insert _ i (Running task) Crashed Hi) as Hw. simpl in *.
      rewrite length_insert. lia.
  - unfold ThreadPool_dtor in Hs. destruct (dtor p) as [| |k|]; try done.
    + injection Hs as <-. simpl. pose proof (weight_wake (workers_ p)).
      rewrite length_fmap. lia.
    + destruct (workers_ p !! k) as [w|] eqn:Hk.
      * destruct w; try done. injection Hs as <-. simpl.
        apply lookup_lt_Some in Hk. lia.
      * injection Hs as <-. simpl. lia.
Qed.

Lemma run_internal_run tr : ∀ p p', run_internal p tr = Some p' → run p tr = Some p'.
Proof.
  induction tr as [|l tr IH]; intros p p'; simpl; [done|].
  destruct (internal p l); [|done]. destruct (step p l); [apply IH|done].
Qed.

Lemma run_internal_bounded tr : ∀ p p',
  run_internal p tr = Some p' → length tr + measure p' ≤ measure p.
Proof.
  induction tr as [|l tr IH]; intros p p'; simpl.
  - intros [= <-]. lia.
  - destruct (internal p l) eqn:Hint; [|done].
    destruct (step p l) as [p1|] eqn:Hs; [|done].
    intros Hr. apply IH in Hr.
    pose proof (internal_step_decreases p l p1 Hs Hint). lia.
Qed.

Lemma forallb_false_lookup {A} (f : A → bool) (xs : list A) :
  forallb f xs = false → ∃ i x, xs !! i = Some x ∧ f x = false.
Proof.
  induction xs as [|x xs IH]; simpl; [done|].
  destruct (f x) eqn:Hx; simpl.
  - intros (i & y & Hi & Hy)%IH. by exists (S i), y.
  - intros _. by exists 0, x.
Qed.

(** A pool that is not at rest has a thread that can move. *)
Lemma progress p :
  quiescent p = false → ∃ l p', internal p l = true ∧ step p l = Some p'.
Proof.
  unfold quiescent. intros [[Hw|Hu]%andb_false_iff|Hd]%andb_false_iff.
  - apply forallb_false_lookup in Hw as (i & w & Hi & Hw).
    exists (Work i). simpl. unfold workerThread. rewrite Hi.
    destruct w; try done; eauto.
  - apply bool_decide_eq_false in Hu.
    destruct (forallb (λ x, negb (is_blocked x)) (workers_ p)) eqn:Hb.
    + exists (NotifyOne None). simpl. unfold notify_one.
      destruct (unnotified p); [done|]. rewrite Hb. eauto.
    + apply forallb_false_lookup in Hb as (i & w & Hi & Hw).
      exists (NotifyOne (Some i)). simpl. unfold notify_one.
      destruct (unnotified p); [done|]. rewrite Hi. destruct w; try done. eauto.
  - exists Destroy. simpl. unfold ThreadPool_dtor.
    destruct (dtor p) as [| |k|]; try done; [eauto|].
    destruct (workers_ p !! k) as [[]|]; try done; eauto.
Qed.

(** From every state the pool's threads come to rest, whatever the
    scheduler does, within [measure p] transitions. *)
Lemma drain_exists p :
  ∃ tr p', run_internal p tr = Some p' ∧ quiescent p' = true.
Proof.
  remember (measure p) as n eqn:Hn. revert p Hn.
  induction n as [n IH] using lt_wf_ind. intros p ->.
  destruct (quiescent p) eqn:Hq.
  - exists [], p. done.
  - destruct (progress p Hq) as (l & p1 & Hint & Hs).
    pose proof (internal_step_decreases p l p1 Hs Hint) as Hlt.
    destruct (IH (measure p1) Hlt p1 eq_refl) as (tr & p' & Hr & Hq').
    exists (l :: tr), p'. simpl. by rewrite Hint, Hs.
Qed.

Lemma not_quiescent_extends p :
  quiescent p = false →
  ∃ l p', run_internal p [l] = Some p' ∧ measure p' < measure p.
Proof.
  intros (l & p' & Hint & Hs)%progress. exists l, p'. simpl. rewrite Hint, Hs.
  split; [done|]. by eapply internal_step_decreases.
Qed.

(** ** The worker set is fixed, and exits are final *)

Lemma workers_length_step p l p' :
  step p l = Some p' → length (workers_ p') = length (workers_ p).
Proof.
  intros Hs. destruct l as [c|w|i|i|]; simpl in Hs.
  - destruct (is_destroyed p); [done|]. by injection Hs as <-.
  - unfold notify_one in Hs. destruct (unnotified p); [done|].
    destruct w as [i|].
    + destruct (workers_ p !! i) as [[]|]; try done. injection Hs as <-.
      simpl. by rewrite length_insert.
    + destruct (forallb _ _); [|done]. by injection Hs as <-.
  - unfold workerThread in Hs. destruct (workers_ p !! i) as [[]|]; try done;
      injection Hs as <-; unfold critical_section, run_task.
    + destruct (negb _); [simpl; by rewrite length_insert|].
      destruct (_ && _); [simpl; by rewrite length_insert|].
      destruct (tasks_ p); simpl; by rewrite length_insert.
    + destruct (negb _); [simpl; by rewrite length_insert|].
      destruct (_ && _); [simpl; by rewrite length_insert|].
      destruct (tasks_ p); simpl; by rewrite length_insert.
    + destruct (invoke _ _); simpl; by rewrite length_insert.
  - unfold spurious in Hs. destruct (workers_ p !! i) as [[]|]; try done.
    injection Hs as <-. simpl. by rewrite length_insert.
  - unfold ThreadPool_dtor in Hs. destruct (dtor p); try done.
    + by injection Hs as <-.
    + injection Hs as <-. simpl. by rewrite length_fmap.
    + destruct (workers_ p !! k) as [[]|]; try done; by injection Hs as <-.
Qed.

Lemma workers_length_run tr : ∀ p p',
  run p tr = Some p' → length (workers_ p') = length (workers_ p).
Proof.
  induction tr as [|l tr IH]; intros p p'; simpl.
  - by intros [= <-].
  - destruct (step p l) as [p1|] eqn:Hs; [|done].
    intros Hr. rewrite (IH p1 p' Hr). by eapply workers_length_step.
Qed.

Lemma workers_length_reachable (n : Z) tr p :
  run (ThreadPool_ctor V E n) tr = Some p → length (workers_ p) = Z.to_nat n.
Proof.
  intros Hr. rewrite (workers_length_run tr _ p Hr). simpl. apply length_replicate.
Qed.

(** Before the stop flag is set no worker has returned, so a pool built with
    at least one worker has a live one. *)
Lemma live_before_stop (n : Z) tr p :
  (1 ≤ n)%Z → run (ThreadPool_ctor V E n) tr = Some p → stop_ p = false →
  live (workers_ p).
Proof.
  intros Hn Hr Hst. pose proof (Inv_reachable n tr p Hr) as HI.
  pose proof (workers_length_reachable n tr p Hr) as Hlen.
  destruct (lookup_lt_is_Some_2 (workers_ p) 0) as [w Hw]; [lia|].
  exists 0, w. split; [done|]. intros ->.
  apply (inv_exit p HI) in Hw. congruence.
Qed.

Lemma terminated_step i p l p' :
  step p l = Some p' → workers_ p !! i = Some Terminated →
  workers_ p' !! i = Some Terminated.
Proof.
  intros Hs Hi.
  assert (Hins : ∀ j w, workers_ p !! j ≠ Some Terminated →
            <[j:=w]> (workers_ p) !! i = Some Terminated).
  { intros j w Hj. rewrite list_lookup_insert_ne; [done|]. by intros ->. }
  destruct l as [c|w|j|j|]; simpl in Hs.
  - destruct (is_destroyed p); [done|]. by injection Hs as <-.
  - unfold notify_one in Hs. destruct (unnotified p); [done|].
    destruct w as [j|].
    + destruct (workers_ p !! j) as [[]|] eqn:Hj; try done. injection Hs as <-.
      simpl. apply Hins. by rewrite Hj.
    + destruct (forallb _ _); [|done]. by injection Hs as <-.
  - unfold workerThread in Hs. destruct (workers_ p !! j) as [[]|] eqn:Hj; try done;
      injection Hs as <-; unfold critical_section, run_task.
    + destruct (negb _); [simpl; apply Hins; by rewrite Hj|].
      destruct (_ && _); [simpl; apply Hins; by rewrite Hj|].
      destruct (tasks_ p); simpl; apply Hins; by rewrite Hj.
    + destruct (negb _); [simpl; apply Hins; by rewrite Hj|].
      destruct (_ && _); [simpl; apply Hins; by rewrite Hj|].
      destruct (tasks_ p); simpl; apply Hins; by rewrite Hj.
    + destruct (invoke _ _); simpl; apply Hins; by rewrite Hj.
  - unfold spurious in Hs. destruct (workers_ p !! j) as [[]|] eqn:Hj; try done.
    injection Hs as <-. simpl. apply Hins. by rewrite Hj.
  - unfold ThreadPool_dtor in Hs. destruct (dtor p); try done.
    + by injection Hs as <-.
    + injection Hs as <-. simpl. by rewrite list_lookup_fmap, Hi.
    + destruct (workers_ p !! k) as [[]|]; try done; by injection Hs as <-.
Qed.

Lemma terminated_run tr : ∀ i p p',
  run p tr = Some p' → workers_ p !! i = Some Terminated →
  workers_ p' !! i = Some Terminated.
Proof.
  induction tr as [|l tr IH]; intros i p p'; simpl.
  - by intros [= <-].
  - destruct (step p l) as [p1|] eqn:Hs; [|done].
    intros Hr Hi. eapply IH; [done|]. by eapply terminated_step.
Qed.

(** Once every worker has returned, nothing is executed any more. *)
Lemma all_terminated_step p l p' :
  step p l = Some p' → all_terminated p →
  all_terminated p' ∧ executed p' = executed p.
Proof.
  intros Hs Hall.
  assert (Hkeep : all_terminated p').
  { intros i w Hi.
    assert (Hlt : i < length (workers_ p)).
    { rewrite <- (workers_length_step p l p' Hs). by eapply lookup_lt_Some. }
    destruct (lookup_lt_is_Some_2 _ _ Hlt) as [w0 Hw0].
    pose proof (Hall i w0 Hw0) as ->.
    rewrite (terminated_step i p l p' Hs Hw0) in Hi. congruence. }
  split; [done|].
  destruct l as [c|w|j|j|]; simpl in Hs.
  - destruct (is_destroyed p); [done|]. by injection Hs as <-.
  - unfold notify_one in Hs. destruct (unnotified p); [done|].
    destruct w as [j|].
    + destruct (workers_ p !! j) as [[]|] eqn:Hj; try done. by injection Hs as <-.
    + destruct (forallb _ _); [|done]. by injection Hs as <-.
  - unfold workerThread in Hs. destruct (workers_ p !! j) as [w|] eqn:Hj; [|done].
    rewrite (Hall j w Hj) in Hs. done.
  - unfold spurious in Hs. destruct (workers_ p !! j) as [[]|] eqn:Hj; try done.
    by injection Hs as <-.
  - unfold ThreadPool_dtor in Hs. destruct (dtor p); try done.
    + by injection Hs as <-.
    + by injection Hs as <-.
    + destruct (workers_ p !! k) as [[]|]; try done; by injection Hs as <-.
Qed.

Lemma all_terminated_run tr : ∀ p p',
  run p tr = Some p' → all_terminated p →
  all_terminated p' ∧ executed p' = executed p.
Proof.
  induction tr as [|l tr IH]; intros p p'; simpl.
  - by intros [= <-].
  - destruct (step p l) as [p1|] eqn:Hs; [|done].
    intros Hr Hall. destruct (all_terminated_step p l p1 Hs Hall) as [H1 He1].
    destruct (IH p1 p' Hr H1) as [H2 He2]. split; [done|congruence].
Qed.

Lemma served_all_terminated t p :
  Inv p → all_terminated p → served t p → t ∈ executed p.
Proof.
  intros HI Hall [Hd|[_ (i & w & Hi & Hw)]].
  - rewrite <- (inv_held p HI), running_all_idle in Hd.
    + by rewrite app_nil_r in Hd.
    + intros j w Hj. by rewrite (Hall j w Hj).
  - by apply Hall in Hi.
Qed.

Lemma dequeuer_unique (l : list (nat * nat)) i j t :
  NoDup l.*2 → (i, t) ∈ l → (j, t) ∈ l → i = j.
Proof.
  induction l as [|[a b] l IH]; simpl; intros Hnd Hi Hj.
  - by apply not_elem_of_nil in Hi.
  - apply NoDup_cons in Hnd as [Hb Hnd].
    apply elem_of_cons in Hi as [Hi|Hi]; apply elem_of_cons in Hj as [Hj|Hj].
    + congruence.
    + injection Hi as -> ->. exfalso. apply Hb.
      apply list_elem_of_fmap. by exists (j, b).
    + injection Hj as -> ->. exfalso. apply Hb.
      apply list_elem_of_fmap. by exists (i, b).
    + by apply IH.
Qed.

(** What [submit] leaves behind for the task it created. *)
Lemma submit_served c p :
  live (workers_ p) → served (length (heap p)) (submit c p).1.
Proof.
  intros Hl. right. simpl. split; [|done]. apply elem_of_app. right. by left.
Qed.

Lemma submit_stored c p :
  heap (submit c p).1 !! length (heap p) = Some (PackagedTask c None).
Proof. simpl. by rewrite lookup_app_r, Nat.sub_diag. Qed.

(** ** The future of a submitted task *)

Lemma task_outcome c p1 tr2 p3 :
  Inv p1 → run (submit c p1).1 tr2 = Some p3 →
  (∀ r, get p3 (length (heap p1)) = Some r → r = c tt)
  ∧ (live (workers_ p1) → quiescent p3 = true →
     get p3 (length (heap p1)) = Some (c tt))
  ∧ (live (workers_ p1) → all_terminated p3 →
     length (heap p1) ∈ executed p3 ∧ get p3 (length (heap p1)) = Some (c tt)).
Proof.
  intros HI1 Hr.
  assert (HI3 : Inv p3) by (eapply Inv_run; [by apply Inv_submit|done]).
  destruct (stored_fn_run tr2 _ _ _ p3 Hr (submit_stored c p1)) as (pt & Hpt & Hfn).
  simpl in Hfn. split; [|split].
  - intros r (_ & pt' & Hpt' & ->)%get_sound; [|done]. congruence.
  - intros Hl Hq. rewrite <- Hfn. apply get_executed; [done..|].
    apply quiescent_served; [done..|].
    eapply served_run; [done|]. by apply submit_served.
  - intros Hl Hall.
    assert (Hex : length (heap p1) ∈ executed p3).
    { apply served_all_terminated; [done..|].
      eapply served_run; [done|]. by apply submit_served. }
    split; [done|]. rewrite <- Hfn. by apply get_executed.
Qed.

(** C2, as the code has it: for every callable [f] and arguments [args]
    submitted with [submit(f, args...)] to a pool in any reachable state,
    [get()] on the returned future only ever produces the outcome of [f]
    applied to [args]; when a worker was left at the moment the task was
    submitted, [get()] has produced it whenever the pool's threads have come
    to rest, and from every later state the pool's own threads do come to
    rest (a callable being a function that returns or throws). *)
Theorem get_returns_bound_call {A : Type} (n : Z) tr1 p1
    (f : A → outcome V E) (args : A) tr2 p3 :
  run (ThreadPool_ctor V E n) tr1 = Some p1 →
  run (submit (bind f args) p1).1 tr2 = Some p3 →
  (∀ r, get p3 (submit (bind f args) p1).2 = Some r → r = f args)
  ∧ (live (workers_ p1) → quiescent p3 = true →
     get p3 (submit (bind f args) p1).2 = Some (f args))
  ∧ (∃ tr3 p4, run_internal p3 tr3 = Some p4 ∧ quiescent p4 = true
       ∧ (live (workers_ p1) → get p4 (submit (bind f args) p1).2 = Some (f args))).
Proof.
  intros Hr1 Hr2. pose proof (Inv_reachable n tr1 p1 Hr1) as HI1.
  destruct (task_outcome (bind f args) p1 tr2 p3 HI1 Hr2) as (Hsafe & Hrest & _).
  split; [done|]. split; [done|].
  destruct (drain_exists p3) as (tr3 & p4 & Hr3 & Hq4).
  exists tr3, p4. split; [done|]. split; [done|]. intros Hl.
  assert (Hr4 : run (submit (bind f args) p1).1 (tr2 ++ tr3) = Some p4).
  { rewrite run_app, Hr2. by apply run_internal_run. }
  by destruct (task_outcome (bind f args) p1 (tr2 ++ tr3) p4 HI1 Hr4) as (_ & H & _); auto.
Qed.

(** ** What one worker step does *)

(** A worker that holds a task invokes it, stores the outcome in the task's
    shared state and returns to the top of its loop. *)
Lemma run_task_completes i t p :
  Inv p → workers_ p !! i = Some (Running t) →
  ∃ pt, heap p !! t = Some pt
    ∧ workerThread i p =
      Some (MkPool (<[i:=AtLoop]> (workers_ p)) (tasks_ p) (stop_ p)
              (<[t:=PackagedTask (stored_fn pt) (Some (stored_fn pt tt))]> (heap p))
              (unnotified p) (dtor p) (dequeued p) (executed p ++ [t])).
Proof.
  intros HI Hi. destruct (Inv_held_fresh i t p HI Hi) as (_ & pt & Hpt & Hss).
  exists pt. split; [done|].
  unfold workerThread, run_task, invoke. by rewrite Hi, Hpt, Hss.
Qed.

(** A worker returns from [workerThread] only when it finds the stop flag set
    and the queue empty. *)
Lemma worker_exit_condition i p p' :
  workerThread i p = Some p' → workers_ p !! i ≠ Some Terminated →
  workers_ p' !! i = Some Terminated → stop_ p = true ∧ tasks_ p = [].
Proof.
  unfold workerThread. destruct (workers_ p !! i) as [w|] eqn:Hi; [|done].
  assert (Hlt : i < length (workers_ p)) by (eapply lookup_lt_Some; eauto).
  assert (Hcs : workers_ (critical_section i p) !! i = Some Terminated →
                stop_ p = true ∧ tasks_ p = []).
  { unfold critical_section, wait_pred.
    destruct (stop_ p); destruct (tasks_ p); simpl;
      rewrite list_lookup_insert_eq by done; done. }
  destruct w; try done; intros [= <-] _; try done.
  unfold run_task. destruct (invoke _ _); simpl;
    rewrite list_lookup_insert_eq by done; done.
Qed.

(** ** Each task at most once, and once when a worker is left for it *)

(** C3, as the code has it: in every reachable pool each task has been
    dequeued at most once, by a worker of the pool, and invoked at most once,
    and only tasks that were dequeued have been invoked; a task that was
    enqueued while some worker had not yet returned from its loop has been
    dequeued exactly once, by one worker, and invoked exactly once whenever
    the pool's threads are at rest. *)
Theorem each_task_at_most_once (n : Z) tr p :
  run (ThreadPool_ctor V E n) tr = Some p →
  (∀ t, dequeues t p ≤ 1 ∧ invocations t p ≤ 1)
  ∧ (∀ t, t ∈ executed p → t ∈ (dequeued p).*2)
  ∧ (∀ i t, (i, t) ∈ dequeued p → i < length (workers_ p) ∧ t < length (heap p))
  ∧ (∀ i j t, (i, t) ∈ dequeued p → (j, t) ∈ dequeued p → i = j)
  ∧ (∀ tr1 c tr2 p1,
       tr = tr1 ++ Submit c :: tr2 →
       run (ThreadPool_ctor V E n) tr1 = Some p1 →
       live (workers_ p1) → quiescent p = true →
       dequeues (length (heap p1)) p = 1
       ∧ invocations (length (heap p1)) p = 1
       ∧ ∃ i, (i, length (heap p1)) ∈ dequeued p).
Proof.
  intros Hr. pose proof (Inv_reachable n tr p Hr) as HI.
  pose proof (Inv_dequeued_NoDup p HI) as Hnd0.
  pose proof (proj1 (NoDup_ListNoDup _) Hnd0) as Hnd.
  pose proof (proj1 (NoDup_ListNoDup _) (Inv_executed_NoDup p HI)) as Hne.
  split.
  { intros t. split.
    - apply (proj1 (NoDup_count_occ Nat.eq_dec _) Hnd).
    - apply (proj1 (NoDup_count_occ Nat.eq_dec _) Hne). }
  split; [intros t; by apply Inv_executed_dequeued|].
  split.
  { intros i t Hit. split; [by eapply inv_dequeuer|].
    apply Inv_dequeued_lt; [done|]. apply list_elem_of_fmap. by exists (i, t). }
  split; [intros i j t; by apply dequeuer_unique|].
  intros tr1 c tr2 p1 -> Hr1 Hl Hq.
  rewrite run_app, Hr1 in Hr. simpl in Hr.
  destruct (is_destroyed p1); [done|].
  assert (Hex : length (heap p1) ∈ executed p).
  { apply quiescent_served; [done..|].
    eapply served_run; [done|]. by apply submit_served. }
  assert (Hdq : length (heap p1) ∈ (dequeued p).*2) by (by apply Inv_executed_dequeued).
  split; [by apply (proj1 (NoDup_count_occ' Nat.eq_dec _) Hnd), list_elem_of_In|].
  split; [by apply (proj1 (NoDup_count_occ' Nat.eq_dec _) Hne), list_elem_of_In|].
  apply list_elem_of_fmap in Hdq as ([i t] & Ht & Hin).
  simpl in Ht. subst t. by exists i.
Qed.

(** ** Destruction waits for the queue to drain *)

(** C4, as the code has it: for a pool with at least one worker, a worker
    returns only when it finds the stop flag set and the queue empty; a worker
    that holds a task invokes it and goes back to its loop rather than
    returning; the destructor returns only after every worker has returned;
    and once every worker has returned, every task enqueued before the stop
    flag was set has been executed and its future is ready. *)
Theorem destruction_waits_for_enqueued (n : Z) tr1 p1 c tr2 p :
  (1 ≤ n)%Z →
  run (ThreadPool_ctor V E n) tr1 = Some p1 →
  stop_ p1 = false →
  run (submit c p1).1 tr2 = Some p →
  (∀ i p', workerThread i p = Some p' → workers_ p !! i ≠ Some Terminated →
           workers_ p' !! i = Some Terminated → stop_ p = true ∧ tasks_ p = [])
  ∧ (∀ i t, workers_ p !! i = Some (Running t) →
       ∃ p', workerThread i p = Some p' ∧ workers_ p' !! i = Some AtLoop
             ∧ t ∈ executed p')
  ∧ (dtor p = Destroyed → all_terminated p)
  ∧ (all_terminated p →
       length (heap p1) ∈ executed p ∧ get p (length (heap p1)) = Some (c tt)).
Proof.
  intros Hn Hr1 Hst Hr2.
  pose proof (Inv_reachable n tr1 p1 Hr1) as HI1.
  assert (HI : Inv p) by (eapply Inv_run; [by apply Inv_submit|done]).
  split; [intros i p'; apply worker_exit_condition|].
  split.
  { intros i t Hi. destruct (run_task_completes i t p HI Hi) as (pt & Hpt & Hw).
    eexists. split; [done|]. simpl. split.
    - apply list_lookup_insert_eq. by eapply lookup_lt_Some.
    - apply elem_of_app. right. by left. }
  split; [exact (proj2 (inv_joined p HI))|].
  intros Hall. eapply task_outcome; eauto. by eapply live_before_stop.
Qed.

Lemma critical_section_spec i w p :
  workers_ p !! i = Some w → w = AtLoop ∨ w = Woken →
  workerThread i p = Some (critical_section i p)
  ∧ match tasks_ p with
    | t :: q =>
        critical_section i p =
        MkPool (<[i:=Running t]> (workers_ p)) q (stop_ p) (heap p) (unnotified p)
               (dtor p) (dequeued p ++ [(i, t)]) (executed p)
    | [] =>
        critical_section i p =
        set_worker i (if stop_ p then Terminated else Blocked) p
    end.
Proof.
  intros Hi Hw. split.
  - unfold workerThread. rewrite Hi. by destruct Hw as [-> | ->].
  - unfold critical_section, wait_pred.
    destruct (stop_ p); destruct (tasks_ p); done.
Qed.

(** ** The stop flag *)

Lemma stop_change_step p l p' :
  step p l = Some p' → stop_ p' ≠ stop_ p →
  l = Destroy ∧ dtor p = Alive ∧ stop_ p' = true.
Proof.
  intros Hs Hne. destruct l as [c|w|i|i|]; simpl in Hs.
  - exfalso. destruct (is_destroyed p); [done|]. by injection Hs as <-.
  - exfalso. unfold notify_one in Hs. destruct (unnotified p); [done|].
    destruct w as [i|].
    + destruct (workers_ p !! i) as [[]|]; try done. by injection Hs as <-.
    + destruct (forallb _ _); [|done]. by injection Hs as <-.
  - exfalso. unfold workerThread in Hs.
    destruct (workers_ p !! i) as [[]|]; try done;
      injection Hs as <-; revert Hne; unfold critical_section, run_task.
    + destruct (negb _); [done|]. destruct (_ && _); [done|]. by destruct (tasks_ p).
    + destruct (negb _); [done|]. destruct (_ && _); [done|]. by destruct (tasks_ p).
    + by destruct (invoke _ _).
  - exfalso. unfold spurious in Hs. destruct (workers_ p !! i) as [[]|]; try done.
    by injection Hs as <-.
  - unfold ThreadPool_dtor in Hs. destruct (dtor p) as [| |k|]; try done.
    + by injection Hs as <-.
    + exfalso. by injection Hs as <-.
    + exfalso. destruct (workers_ p !! k) as [[]|]; try done; by injection Hs as <-.
Qed.

Lemma stop_monotone_step p l p' :
  step p l = Some p' → stop_ p = true → stop_ p' = true.
Proof.
  intros Hs Hst. destruct (decide (stop_ p' = stop_ p)) as [Heq|Hne]; [congruence|].
  by apply (stop_change_step p l p' Hs) in Hne as (_ & _ & ?).
Qed.

Lemma stop_changes_run tr : ∀ p p',
  run p tr = Some p' →
  stop_changes p tr + (if stop_ p then 1 else 0) = if stop_ p' then 1 else 0.
Proof.
  induction tr as [|l tr IH]; intros p p'; simpl.
  - by intros [= <-].
  - destruct (step p l) as [p1|] eqn:Hs; [|done].
    intros Hr. specialize (IH p1 p' Hr). case_bool_decide as Hc.
    + rewrite <- Hc. lia.
    + destruct (stop_change_step p l p1 Hs Hc) as (_ & _ & H1).
      rewrite H1 in IH, Hc. destruct (stop_ p); [done|].
      destruct (stop_ p'); lia.
Qed.

(** With the flag set and the wake-up done, a pool at rest has no worker
    left. *)
Lemma stopped_rest_all_terminated p :
  Inv p → stop_ p = true → quiescent p = true → all_terminated p.
Proof.
  intros HI Hst Hq i w Hi.
  destruct (quiescent_spec p Hq) as (Hsl & _ & Hd).
  specialize (Hsl i w Hi). unfold awake in Hsl.
  destruct w; try done.
  - exfalso. apply (inv_stop p HI) in Hst.
    destruct (dtor p) as [| |k|] eqn:Hdt; try done.
    + by apply (proj1 (inv_notified p HI) k Hdt) in Hi.
    + by apply (proj2 (inv_notified p HI) Hdt) in Hi.
  - by apply (inv_no_crash p HI) in Hi.
Qed.

(** C5, as the code has it: the stop flag starts false; along every run it
    is changed exactly once if it is set at all, by the destructor's first
    step, to true; no transition resets it; and once it is true a worker that
    looks at the queue never waits for new tasks: it takes the front task
    while the queue is non-empty and returns when it is empty.  As long as a
    worker is left, the tasks in the queue are drained: when the pool is at
    rest every worker has returned and every task that was queued has been
    executed, its future holding the outcome of its callable.  [submit] does
    not look at the flag: a task submitted with the flag set is appended all
    the same; it is executed if a worker is left when it is submitted, and
    never invoked if every worker has returned. *)
Theorem stop_flag_one_way (n : Z) tr p :
  run (ThreadPool_ctor V E n) tr = Some p →
  stop_ (ThreadPool_ctor V E n) = false
  ∧ stop_changes (ThreadPool_ctor V E n) tr = (if stop_ p then 1 else 0)
  ∧ (∀ l p', step p l = Some p' → stop_ p' ≠ stop_ p →
       l = Destroy ∧ dtor p = Alive ∧ stop_ p = false ∧ stop_ p' = true)
  ∧ (∀ tr' p', run p tr' = Some p' → stop_ p = true → stop_ p' = true)
  ∧ (stop_ p = true →
     ∀ i w, workers_ p !! i = Some w → w = AtLoop ∨ w = Woken →
       ∃ p', workerThread i p = Some p'
         ∧ match tasks_ p with
           | t :: q => workers_ p' !! i = Some (Running t) ∧ tasks_ p' = q
           | [] => workers_ p' !! i = Some Terminated ∧ tasks_ p' = []
           end)
  ∧ (stop_ p = true → quiescent p = true → all_terminated p)
  ∧ (all_terminated p → ∀ c tr' p', run (submit c p).1 tr' = Some p' →
       (length (heap p) ∉ executed p') ∧ get p' (length (heap p)) = None)
  ∧ (stop_ p = true → live (workers_ p) →
     ∀ tr' p', run p tr' = Some p' → quiescent p' = true →
       all_terminated p'
       ∧ ∀ t pt, t ∈ tasks_ p → heap p !! t = Some pt →
           t ∈ executed p' ∧ get p' t = Some (stored_fn pt tt))
  ∧ (stop_ p = true → live (workers_ p) →
     ∀ c, try_submit c p = Ok (submit c p)
       ∧ ∀ tr' p', run (submit c p).1 tr' = Some p' → quiescent p' = true →
           length (heap p) ∈ executed p'
           ∧ get p' (length (heap p)) = Some (c tt)).
Proof.
  intros Hr. pose proof (Inv_reachable n tr p Hr) as HI.
  split; [done|]. split.
  { pose proof (stop_changes_run tr _ p Hr) as H. simpl in H. lia. }
  split.
  { intros l p' Hs Hne. destruct (stop_change_step p l p' Hs Hne) as (-> & Hd & H1).
    repeat split; try done. rewrite H1 in Hne. by destruct (stop_ p). }
  split.
  { intros tr' p' Hr' Hst. pose proof (stop_changes_run tr' p p' Hr') as H.
    rewrite Hst in H. destruct (stop_ p'); [done|lia]. }
  split; [|split; [by apply stopped_rest_all_terminated|split; [|split]]].
  2:{ intros Hall c tr' p' Hr'.
      assert (HI' : Inv p') by (eapply Inv_run; [by apply Inv_submit|done]).
      destruct (all_terminated_run tr' _ p' Hr' Hall) as [_ He].
      assert (Hne : length (heap p) ∉ executed p').
      { rewrite He. simpl. intros Hin.
        apply Inv_executed_dequeued, Inv_dequeued_lt in Hin; [lia|done..]. }
      split; [done|]. by apply get_pending. }
  2:{ intros Hst Hl tr' p' Hr' Hq.
      assert (HI' : Inv p') by (by eapply Inv_run).
      assert (Hst' : stop_ p' = true).
      { pose proof (stop_changes_run tr' p p' Hr') as H.
        rewrite Hst in H. destruct (stop_ p'); [done|lia]. }
      split; [by apply stopped_rest_all_terminated|].
      intros t pt Ht Hpt.
      assert (Hex : t ∈ executed p').
      { apply quiescent_served; [done..|].
        eapply served_run; [done|]. by right. }
      split; [done|].
      destruct (stored_fn_run tr' t pt p p' Hr' Hpt) as (pt' & Hpt' & Hfn).
      rewrite <- Hfn. by apply get_executed. }
  2:{ intros Hst Hl c. split; [done|]. intros tr' p' Hr' Hq.
      destruct (task_outcome c p tr' p' HI Hr') as (_ & Hrest & _).
      specialize (Hrest Hl Hq). split; [|done].
      apply get_sound in Hrest as [? _]; [done|].
      eapply Inv_run; [|exact Hr']. by apply Inv_submit. }
  intros Hst i w Hi Hw.
  assert (Hlt : i < length (workers_ p)) by (eapply lookup_lt_Some; eauto).
  destruct (critical_section_spec i w p Hi Hw) as [Hws Hcs].
  exists (critical_section i p). split; [done|].
  rewrite Hst in Hcs. destruct (tasks_ p) as [|t q] eqn:Hq; rewrite Hcs; simpl.
  - by rewrite list_lookup_insert_eq.
  - by rewrite list_lookup_insert_eq.
Qed.

(** ** A throwing callable *)

(** C6: when a submitted callable throws [e], no worker ever ends abnormally;
    [get()] on the task's future only ever produces that exception, and has
    produced it once the pool's threads are at rest; the worker that invokes
    the task stores the exception in the shared state, returns to the top of
    its loop with the queue untouched and takes its next step there as any
    idle worker does (the front task if there is one); and [submit] stays
    enabled. *)
Theorem throwing_task_is_captured (n : Z) tr1 p1 c e tr2 p :
  run (ThreadPool_ctor V E n) tr1 = Some p1 →
  c tt = Threw e →
  run (submit c p1).1 tr2 = Some p →
  (∀ i, workers_ p !! i ≠ Some Crashed)
  ∧ (∀ r, get p (length (heap p1)) = Some r → r = Threw e)
  ∧ (live (workers_ p1) → quiescent p = true →
     get p (length (heap p1)) = Some (Threw e))
  ∧ (∀ i, workers_ p !! i = Some (Running (length (heap p1))) →
       ∃ p', workerThread i p = Some p'
         ∧ get p' (length (heap p1)) = Some (Threw e)
         ∧ workers_ p' !! i = Some AtLoop
         ∧ (∀ j, j ≠ i → workers_ p' !! j = workers_ p !! j)
         ∧ tasks_ p' = tasks_ p
         ∧ ∃ p'', workerThread i p' = Some p''
             ∧ workers_ p'' !! i =
               Some (match tasks_ p with
                     | t :: _ => Running t
                     | [] => if stop_ p then Terminated else Blocked
                     end))
  ∧ (is_destroyed p = false → ∀ c', step p (Submit c') = Some (submit c' p).1).
Proof.
  intros Hr1 Hc Hr2.
  pose proof (Inv_reachable n tr1 p1 Hr1) as HI1.
  assert (HI : Inv p) by (eapply Inv_run; [by apply Inv_submit|done]).
  destruct (task_outcome c p1 tr2 p HI1 Hr2) as (Hsafe & Hrest & _).
  rewrite Hc in Hsafe, Hrest.
  split; [apply (inv_no_crash p HI)|]. split; [done|]. split; [done|].
  split; [|by intros Hd c'; simpl; rewrite Hd].
  intros i Hi.
  assert (Hlt : i < length (workers_ p)) by (eapply lookup_lt_Some; eauto).
  destruct (run_task_completes i _ p HI Hi) as (pt & Hpt & Hw).
  destruct (stored_fn_run tr2 _ _ _ p Hr2 (submit_stored c p1)) as (pt' & Hpt' & Hfn).
  assert (pt' = pt) as -> by congruence. simpl in Hfn.
  eexists. split; [exact Hw|].
  split.
  { unfold get. simpl. rewrite list_lookup_insert_eq by (by eapply lookup_lt_Some).
    simpl. by rewrite Hfn, Hc. }
  split; [simpl; by apply list_lookup_insert_eq|].
  split; [intros j Hj; simpl; by apply list_lookup_insert_ne|].
  split; [done|].
  match goal with |- ∃ _, workerThread i ?q = _ ∧ _ =>
    destruct (critical_section_spec i AtLoop q) as [Hws Hcs] end.
  { simpl. by apply list_lookup_insert_eq. }
  { by left. }
  eexists. split; [exact Hws|]. simpl in Hcs.
  destruct (tasks_ p) as [|t q]; rewrite Hcs; simpl;
    rewrite list_lookup_insert_eq; rewrite ?length_insert; done.
Qed.

(** ** Dequeue or wait *)

(** C7: a worker at the wait of line 106 (arriving at it or woken up in it)
    goes to sleep when the queue is empty and the stop flag clear, and a
    sleeping worker has no step of its own; it returns, for good, when the
    stop flag is set and the queue is empty; otherwise it removes the front
    task of the queue and holds it.  The tasks dequeued so far, in dequeue
    order, followed by the queue are the tasks in submission order. *)
Theorem dequeue_or_wait (n : Z) tr p i w :
  run (ThreadPool_ctor V E n) tr = Some p →
  workers_ p !! i = Some w → w = AtLoop ∨ w = Woken →
  (dequeued p).*2 ++ tasks_ p = seq 0 (length (heap p))
  ∧ ∃ p', workerThread i p = Some p'
      ∧ match tasks_ p with
        | t :: q =>
            p' = MkPool (<[i:=Running t]> (workers_ p)) q (stop_ p) (heap p)
                        (unnotified p) (dtor p) (dequeued p ++ [(i, t)]) (executed p)
        | [] =>
            if stop_ p then
              p' = set_worker i Terminated p
              ∧ ∀ tr' p'', run p' tr' = Some p'' →
                  workers_ p'' !! i = Some Terminated ∧ workerThread i p'' = None
            else
              p' = set_worker i Blocked p ∧ workerThread i p' = None
        end.
Proof.
  intros Hr Hi Hw. pose proof (Inv_reachable n tr p Hr) as HI.
  assert (Hlt : i < length (workers_ p)) by (eapply lookup_lt_Some; eauto).
  split; [apply (inv_fifo p HI)|].
  destruct (critical_section_spec i w p Hi Hw) as [Hws Hcs].
  exists (critical_section i p). split; [done|].
  destruct (tasks_ p) as [|t q]; [|done].
  destruct (stop_ p); (split; [done|]); rewrite Hcs.
  - intros tr' p'' Hr'.
    assert (Ht : workers_ p'' !! i = Some Terminated).
    { eapply terminated_run; [done|]. simpl. by apply list_lookup_insert_eq. }
    split; [done|]. unfold workerThread. by rewrite Ht.
  - unfold workerThread. simpl. by rewrite list_lookup_insert_eq.
Qed.

(** ** Notifications *)

Lemma notify_one_spec w p p' :
  notify_one w p = Some p' →
  unnotified p = S (unnotified p') ∧ tasks_ p' = tasks_ p ∧ stop_ p' = stop_ p
  ∧ heap p' = heap p ∧ dtor p' = dtor p
  ∧ match w with
    | Some i => workers_ p !! i = Some Blocked
                ∧ workers_ p' = <[i:=Woken]> (workers_ p)
    | None => (∀ i, workers_ p !! i ≠ Some Blocked) ∧ workers_ p' = workers_ p
    end.
Proof.
  unfold notify_one. destruct (unnotified p) as [|k]; [done|].
  destruct w as [i|].
  - destruct (workers_ p !! i) as [[]|]; try done. by intros [= <-].
  - destruct (forallb _ _) eqn:Hb; [|done]. intros [= <-].
    repeat split; try done. by apply forallb_not_blocked.
Qed.

Lemma notify_one_enabled p :
  0 < unnotified p → ∃ w p', notify_one w p = Some p'.
Proof.
  intros Hu. destruct (unnotified p) as [|k] eqn:Hk; [lia|].
  destruct (forallb (λ x, negb (is_blocked x)) (workers_ p)) eqn:Hb.
  - exists None. unfold notify_one. rewrite Hk, Hb. eauto.
  - apply forallb_false_lookup in Hb as (i & w & Hi & Hw).
    exists (Some i). unfold notify_one. rewrite Hk, Hi. destruct w; try done. eauto.
Qed.

Lemma owed_step p l p' :
  step p l = Some p' →
  unnotified p' + (if is_notify_one l then 1 else 0)
  = unnotified p + (if is_submit l then 1 else 0).
Proof.
  intros Hs. destruct l as [c|w|i|i|]; simpl in *.
  - destruct (is_destroyed p); [done|]. injection Hs as <-. simpl. lia.
  - apply notify_one_spec in Hs as (-> & _). lia.
  - unfold workerThread in Hs. destruct (workers_ p !! i) as [[]|]; try done;
      injection Hs as <-; unfold critical_section, run_task.
    + destruct (negb _); [done|]. destruct (_ && _); [done|]. by destruct (tasks_ p).
    + destruct (negb _); [done|]. destruct (_ && _); [done|]. by destruct (tasks_ p).
    + by destruct (invoke _ _).
  - unfold spurious in Hs. destruct (workers_ p !! i) as [[]|]; try done.
    by injection Hs as <-.
  - unfold ThreadPool_dtor in Hs. destruct (dtor p) as [| |k|]; try done.
    + by injection Hs as <-.
    + by injection Hs as <-.
    + destruct (workers_ p !! k) as [[]|]; try done; by injection Hs as <-.
Qed.

Lemma owed_run tr : ∀ p p',
  run p tr = Some p' →
  unnotified p' + count_labels is_notify_one tr
  = unnotified p + count_labels is_submit tr.
Proof.
  induction tr as [|l tr IH]; intros p p'; simpl.
  - intros [= <-]. lia.
  - destruct (step p l) as [p1|] eqn:Hs; [|done].
    intros Hr. specialize (IH p1 p' Hr). pose proof (owed_step p l p1 Hs). lia.
Qed.

(** C9: every enqueue owes one [notify_one], and along every run the calls
    made plus the calls still owed are the enqueues; a [notify_one] turns
    exactly one sleeping worker into a woken one and leaves everything else
    as it is (and does nothing only when no worker sleeps); the destructor
    sets the stop flag and then wakes every sleeping worker; a woken worker
    evaluates the predicate again: with the predicate false it goes back to
    sleep, it returns only with the stop flag set and the queue empty, and it
    dequeues only the front of a non-empty queue; a spurious wake-up with the
    predicate false leads back to the very same pool state. *)
Theorem wake_one_on_enqueue_all_on_stop (n : Z) tr p :
  run (ThreadPool_ctor V E n) tr = Some p →
  unnotified p + count_labels is_notify_one tr = count_labels is_submit tr
  ∧ (∀ c, unnotified (submit c p).1 = S (unnotified p))
  ∧ (∀ w p', notify_one w p = Some p' →
       unnotified p = S (unnotified p') ∧ tasks_ p' = tasks_ p ∧ stop_ p' = stop_ p
       ∧ match w with
         | Some i => workers_ p !! i = Some Blocked
                     ∧ workers_ p' = <[i:=Woken]> (workers_ p)
         | None => (∀ i, workers_ p !! i ≠ Some Blocked) ∧ workers_ p' = workers_ p
         end)
  ∧ (0 < unnotified p → ∃ w p', notify_one w p = Some p')
  ∧ (dtor p = Alive →
       ∃ p', ThreadPool_dtor p = Some p' ∧ stop_ p' = true ∧ dtor p' = StopSet
             ∧ workers_ p' = workers_ p)
  ∧ (dtor p = StopSet →
       ∃ p', ThreadPool_dtor p = Some p' ∧ stop_ p' = true
             ∧ workers_ p' = wake <$> workers_ p
             ∧ ∀ i, workers_ p' !! i ≠ Some Blocked)
  ∧ (∀ i, workers_ p !! i = Some Woken →
       ∃ p', workerThread i p = Some p'
         ∧ (wait_pred p = false → p' = set_worker i Blocked p)
         ∧ (workers_ p' !! i = Some Terminated → stop_ p = true ∧ tasks_ p = [])
         ∧ (∀ t, workers_ p' !! i = Some (Running t) →
              ∃ q, tasks_ p = t :: q ∧ tasks_ p' = q))
  ∧ (∀ i p1, spurious i p = Some p1 → wait_pred p = false →
       workerThread i p1 = Some p).
Proof.
  intros Hr. pose proof (Inv_reachable n tr p Hr) as HI.
  split. { pose proof (owed_run tr _ p Hr) as H. simpl in H. lia. }
  split; [done|].
  split. { intros w p' Hn. apply notify_one_spec in Hn. tauto. }
  split; [apply notify_one_enabled|].
  split. { intros Hd. unfold ThreadPool_dtor. rewrite Hd. eauto. }
  split.
  { intros Hd. unfold ThreadPool_dtor. rewrite Hd. eexists. split; [done|]. simpl.
    split; [apply (inv_stop p HI); by rewrite Hd|]. split; [done|].
    intros i Hi. by apply lookup_wake in Hi as [? _]. }
  split.
  - intros i Hi.
    assert (Hlt : i < length (workers_ p)) by (eapply lookup_lt_Some; eauto).
    destruct (critical_section_spec i Woken p Hi) as [Hws Hcs]; [by right|].
    exists (critical_section i p). split; [done|]. split; [|split].
    + intros Hp. unfold critical_section. by rewrite Hp.
    + apply worker_exit_condition; [done|]. by rewrite Hi.
    + intros t. destruct (tasks_ p) as [|t0 q]; rewrite Hcs; simpl;
        rewrite list_lookup_insert_eq by done.
      * by destruct (stop_ p).
      * intros [= <-]. by exists q.
  - intros i p1 Hsp Hp. unfold spurious in Hsp.
    destruct (workers_ p !! i) as [w|] eqn:Hi; [|done].
    destruct w; try done. injection Hsp as <-.
    assert (Hlt : i < length (workers_ p)) by (eapply lookup_lt_Some; eauto).
    unfold workerThread. simpl. rewrite list_lookup_insert_eq by done.
    unfold critical_section. change (wait_pred (set_worker i Woken p)) with (wait_pred p).
    rewrite Hp. simpl. unfold set_worker, set_workers. simpl.
    rewrite list_insert_insert_eq, (list_insert_id _ _ _ Hi). by destruct p.
Qed.

(** ** submit has no failure path *)

(** C10: in every pool state, the stop flag set or not, [submit] completes
    without an error: it allocates a fresh packaged task holding the
    callable, not yet ready, appends it to the queue, leaves the stop flag,
    the workers and all earlier packaged tasks as they are, and returns the
    new task's index as the future. *)
Theorem submit_never_rejects c p :
  try_submit c p = Ok (submit c p)
  ∧ (∀ e, try_submit c p ≠ Fail e)
  ∧ (submit c p).2 = length (heap p)
  ∧ tasks_ (submit c p).1 = tasks_ p ++ [(submit c p).2]
  ∧ heap (submit c p).1 !! (submit c p).2 = Some (PackagedTask c None)
  ∧ get (submit c p).1 (submit c p).2 = None
  ∧ (∀ t pt, heap p !! t = Some pt → heap (submit c p).1 !! t = Some pt)
  ∧ stop_ (submit c p).1 = stop_ p
  ∧ workers_ (submit c p).1 = workers_ p
  ∧ dtor (submit c p).1 = dtor p
  ∧ (is_destroyed p = false → step p (Submit c) = Some (submit c p).1).
Proof.
  split; [done|]. split; [done|]. split; [done|]. split; [done|].
  split; [apply submit_stored|].
  split.
  { unfold get. change (submit c p).2 with (length (heap p)).
    by rewrite submit_stored. }
  split; [intros t pt Ht; simpl; by apply lookup_app_l_Some|].
  split; [done|]. split; [done|]. split; [done|].
  intros Hd. simpl. by rewrite Hd.
Qed.

End Invariant.

(** ** Construction *)

Section Construction.
Context {V E : Type}.

(** C1, as the code has it: for every worker count [n <= 0] the constructor
    completes without any error and yields a pool that exists, with an empty
    queue, the stop flag clear and no worker thread spawned. *)
Theorem ctor_nonpositive_empty_pool (n : Z) :
  (n <= 0)%Z →
  construct V E n = Ok (MkPool [] [] false [] 0 Alive [] []).
Proof.
  intros Hn. unfold construct, ThreadPool_ctor.
  replace (Z.to_nat n) with 0%nat by lia. reflexivity.
Qed.

End Construction.

(** C1 as stated fails at [n = 0]: no [ConfigurationError], the pool is
    created. *)
Lemma ctor_zero_is_not_an_error :
  ¬ (∀ n : Z, (n <= 0)%Z → construct unit unit n = Fail ConfigurationError).
Proof. intros H. specialize (H 0%Z ltac:(lia)). discriminate H. Qed.

Lemma ctor_nonpositive_empty_pool_witness :
  (-3 <= 0)%Z ∧ construct unit unit (-3) = Ok (MkPool [] [] false [] 0 Alive [] []).
Proof. split; [lia | apply (ctor_nonpositive_empty_pool (-3)); lia]. Defined.

(** ** Concrete runs *)

(** C2 on the driver of [thread_pool_example.cpp]: [add] bound to 1.0 and 2.0
    yields 3.0.  (Both are exactly representable; the sum is exact in
    binary32 as in binary64.) *)
Lemma get_returns_bound_call_witness :
  run (ThreadPool_ctor float unit 4) [] = Some main_p1
  ∧ run (submit (bind add (1%float, 2%float)) main_p1).1 main_rest = Some main_final
  ∧ get main_final 0 = Some (Returned 3%float).
Proof.
  split; [reflexivity|]. split; [vm_compute; reflexivity|].
  apply (get_returns_bound_call 4 [] main_p1 add (1%float, 2%float)
           main_rest main_final); [reflexivity|vm_compute; reflexivity|..].
  - exists 0, AtLoop. split; [reflexivity|discriminate].
  - vm_compute. reflexivity.
Defined.

Example multiply_yields_12 : get main_final 1 = Some (Returned 12%float).
Proof. vm_compute. reflexivity. Qed.

(** C3 as stated fails for a task submitted after the last worker has
    returned: the pool has one worker, the destructor has set the stop flag
    and woken it, the worker has found the queue empty and returned; a task
    submitted now is never invoked, whatever happens next. *)
Lemma late_task_never_executed :
  ¬ (∀ (n : Z) tr1 c p1,
       (1 ≤ n)%Z → run (ThreadPool_ctor nat nat n) tr1 = Some p1 →
       is_destroyed p1 = false →
       ∃ tr2 p3, run (submit c p1).1 tr2 = Some p3 ∧ length (heap p1) ∈ executed p3).
Proof.
  intros H.
  destruct (H 1%Z late_prefix ok5 late_p1 ltac:(lia) eq_refl eq_refl)
    as (tr2 & p3 & Hr & Hex).
  assert (Hall : all_terminated (submit ok5 late_p1).1).
  { intros [|i] w; simpl; [by intros [= <-]|done]. }
  destruct (all_terminated_run tr2 _ p3 Hr Hall) as [_ He].
  rewrite He in Hex. simpl in Hex. by apply not_elem_of_nil in Hex.
Qed.

(** C2 as stated fails for the same late task: its future never yields the
    outcome of the callable, whatever happens next. *)
Lemma unserved_future_never_yields :
  ¬ (∀ (n : Z) tr1 p1 (f : nat → outcome nat nat) args,
       (1 ≤ n)%Z → run (ThreadPool_ctor nat nat n) tr1 = Some p1 →
       is_destroyed p1 = false →
       ∃ tr2 p3, run (submit (bind f args) p1).1 tr2 = Some p3
                 ∧ get p3 (submit (bind f args) p1).2 = Some (f args)).
Proof.
  intros H.
  destruct (H 1%Z late_prefix late_p1 plus10 1 ltac:(lia) eq_refl eq_refl)
    as (tr2 & p3 & Hr & Hg).
  assert (Hall : all_terminated (submit (bind plus10 1) late_p1).1).
  { intros [|i] w; simpl; [by intros [= <-]|done]. }
  destruct (all_terminated_run tr2 _ p3 Hr Hall) as [_ He].
  assert (HI : Inv p3).
  { eapply Inv_run; [|exact Hr].
    apply Inv_submit, (Inv_reachable 1 late_prefix). reflexivity. }
  apply get_sound in Hg as [Hex _]; [|done].
  rewrite He in Hex. simpl in Hex. by apply not_elem_of_nil in Hex.
Qed.

(** C5 as stated fails for a task submitted with the stop flag set while the
    worker has not yet returned: [submit] accepts it, and the worker runs it
    before it exits. *)
Lemma task_submitted_after_stop_is_run :
  ¬ (∀ (n : Z) tr p (c : callable nat nat),
       run (ThreadPool_ctor nat nat n) tr = Some p → stop_ p = true →
       (∃ e, try_submit c p = Fail e)
       ∨ (∀ tr' p', run (submit c p).1 tr' = Some p' →
            length (heap p) ∉ executed p')).
Proof.
  intros H.
  destruct (H 1%Z [Destroy] (after (ThreadPool_ctor nat nat 1) [Destroy]) ok5
              eq_refl eq_refl) as [[e He]|Hnever].
  - discriminate He.
  - apply (Hnever [NotifyOne None; Destroy; Work 0; Work 0] _ eq_refl).
    vm_compute. left.
Qed.

Lemma each_task_at_most_once_witness :
  run (ThreadPool_ctor float unit 4) main_trace = Some main_final
  ∧ dequeues 0 main_final = 1 ∧ invocations 0 main_final = 1
  ∧ ∃ i, (i, 0) ∈ dequeued main_final.
Proof.
  split; [vm_compute; reflexivity|].
  destruct (each_task_at_most_once 4 main_trace main_final
              ltac:(vm_compute; reflexivity)) as (_ & _ & _ & _ & Hserved).
  apply (Hserved [] (bind add (1%float, 2%float)) main_rest main_p1);
    [reflexivity|reflexivity| |vm_compute; reflexivity].
  exists 0, AtLoop. split; [reflexivity|discriminate].
Defined.

(** C4 as stated fails with two workers: worker 0 has dequeued the task and
    not yet finished it when worker 1, finding the stop flag set and the
    queue empty, returns. *)
Lemma idle_worker_exits_during_task :
  ¬ (∀ (n : Z) tr1 c tr2 p1 p,
       run (ThreadPool_ctor nat nat n) tr1 = Some p1 → stop_ p1 = false →
       run (submit c p1).1 tr2 = Some p →
       (∃ i, workers_ p !! i = Some Terminated) →
       length (heap p1) ∈ executed p).
Proof.
  intros H.
  specialize (H 2%Z [] ok5 race_rest (ThreadPool_ctor nat nat 2) race_state
                eq_refl eq_refl eq_refl (ex_intro _ 1 eq_refl)).
  vm_compute in H. by apply not_elem_of_nil in H.
Qed.

Lemma destruction_waits_for_enqueued_witness :
  (1 ≤ 2)%Z
  ∧ run (ThreadPool_ctor nat nat 2) [] = Some (ThreadPool_ctor nat nat 2)
  ∧ stop_ (ThreadPool_ctor nat nat 2) = false
  ∧ run (submit ok5 (ThreadPool_ctor nat nat 2)).1 shutdown_rest = Some shutdown_final
  ∧ dtor shutdown_final = Destroyed
  ∧ 0 ∈ executed shutdown_final
  ∧ get shutdown_final 0 = Some (Returned 5).
Proof.
  split; [lia|]. split; [reflexivity|]. split; [reflexivity|].
  split; [vm_compute; reflexivity|]. split; [vm_compute; reflexivity|].
  destruct (destruction_waits_for_enqueued 2 [] (ThreadPool_ctor nat nat 2) ok5
              shutdown_rest shutdown_final ltac:(lia) eq_refl eq_refl
              ltac:(vm_compute; reflexivity)) as (_ & _ & Hjoin & Hdone).
  apply Hdone, Hjoin. vm_compute. reflexivity.
Defined.

Lemma stop_flag_one_way_witness :
  run (ThreadPool_ctor float unit 4) main_trace = Some main_final
  ∧ stop_ main_final = true
  ∧ stop_changes (ThreadPool_ctor float unit 4) main_trace = 1.
Proof.
  split; [vm_compute; reflexivity|]. split; [vm_compute; reflexivity|].
  apply (stop_flag_one_way 4 main_trace main_final). vm_compute. reflexivity.
Defined.

Lemma throwing_task_is_captured_witness :
  run (ThreadPool_ctor nat nat 1) [] = Some (ThreadPool_ctor nat nat 1)
  ∧ boom tt = Threw 7
  ∧ run (submit boom (ThreadPool_ctor nat nat 1)).1 boom_rest = Some boom_final
  ∧ get boom_final 0 = Some (Threw 7).
Proof.
  split; [reflexivity|]. split; [reflexivity|]. split; [vm_compute; reflexivity|].
  apply (throwing_task_is_captured 1 [] (ThreadPool_ctor nat nat 1) boom 7
           boom_rest boom_final eq_refl eq_refl ltac:(vm_compute; reflexivity)).
  - exists 0, AtLoop. split; [reflexivity|discriminate].
  - vm_compute. reflexivity.
Defined.

(** After the throwing task the same worker has served the next one. *)
Example task_after_throw_served :
  get boom_final 1 = Some (Returned 5) ∧ workers_ boom_final = [Blocked]
  ∧ dequeued boom_final = [(0, 0); (0, 1)].
Proof. vm_compute. auto. Qed.

Lemma dequeue_or_wait_witness :
  run (ThreadPool_ctor nat nat 2) [Submit ok5; NotifyOne None; Work 1]
  = Some (after (ThreadPool_ctor nat nat 2) [Submit ok5; NotifyOne None; Work 1])
  ∧ workers_ (after (ThreadPool_ctor nat nat 2) [Submit ok5; NotifyOne None; Work 1]) !! 0
    = Some AtLoop
  ∧ (AtLoop = AtLoop ∨ AtLoop = Woken)
  ∧ (dequeued (after (ThreadPool_ctor nat nat 2) [Submit ok5; NotifyOne None; Work 1])).*2
    ++ tasks_ (after (ThreadPool_ctor nat nat 2) [Submit ok5; NotifyOne None; Work 1])
    = [0].
Proof.
  split; [vm_compute; reflexivity|]. split; [vm_compute; reflexivity|].
  split; [left; reflexivity|].
  apply (dequeue_or_wait 2 [Submit ok5; NotifyOne None; Work 1] _ 0 AtLoop
           ltac:(vm_compute; reflexivity) ltac:(vm_compute; reflexivity)
           ltac:(left; reflexivity)).
Defined.

Lemma wake_one_on_enqueue_all_on_stop_witness :
  run (ThreadPool_ctor float unit 4) main_trace = Some main_final
  ∧ unnotified main_final + count_labels is_notify_one main_trace
    = count_labels is_submit main_trace.
Proof.
  split; [vm_compute; reflexivity|].
  apply (wake_one_on_enqueue_all_on_stop 4 main_trace main_final).
  vm_compute. reflexivity.
Defined.

(** C10 with the stop flag set: the task is queued all the same, and a
    worker that is still draining the queue runs it. *)
Example submit_after_stop :
  let p := after (ThreadPool_ctor nat nat 1) [Destroy] in
  stop_ p = true
  ∧ try_submit ok5 p = Ok (submit ok5 p)
  ∧ tasks_ (submit ok5 p).1 = [0]
  ∧ get (after (submit ok5 p).1 [NotifyOne None; Destroy; Work 0; Work 0]) 0
    = Some (Returned 5).
Proof. vm_compute. auto. Qed.

(** * Further properties of the pool *)

Section Further.
Context {V E : Type}.
Implicit Types (p : ThreadPool V E) (l : label V E) (tr : list (label V E)).

(** ** What a transition can do to the logs and to the heap *)

Lemma step_executed p l p' :
  step p l = Some p' →
  executed p' = executed p ∨ ∃ t, executed p' = executed p ++ [t].
Proof.
  intros Hs. destruct l as [c|w|i|i|]; simpl in Hs.
  - destruct (is_destroyed p); [done|]. injection Hs as <-. by left.
  - left. unfold notify_one in Hs. destruct (unnotified p); [done|].
    destruct w as [i|].
    + destruct (workers_ p !! i) as [[]|]; try done. by injection Hs as <-.
    + destruct (forallb _ _); [|done]. by injection Hs as <-.
  - unfold workerThread in Hs. destruct (workers_ p !! i) as [[]|]; try done;
      injection Hs as <-; unfold critical_section, run_task.
    + left. destruct (negb _); [done|]. destruct (_ && _); [done|].
      by destruct (tasks_ p).
    + left. destruct (negb _); [done|]. destruct (_ && _); [done|].
      by destruct (tasks_ p).
    + destruct (invoke _ _); [right; by eexists|by left].
  - unfold spurious in Hs. destruct (workers_ p !! i) as [[]|]; try done.
    injection Hs as <-. by left.
  - unfold ThreadPool_dtor in Hs. destruct (dtor p) as [| |k|]; try done.
    + injection Hs as <-. by left.
    + injection Hs as <-. by left.
    + destruct (workers_ p !! k) as [[]|]; try done; injection Hs as <-; by left.
Qed.

Lemma executed_run_prefix tr : ∀ p p',
  run p tr = Some p' → executed p `prefix_of` executed p'.
Proof.
  induction tr as [|l tr IH]; intros p p'; simpl.
  - by intros [= <-].
  - destruct (step p l) as [p1|] eqn:Hs; [|done]. intros Hr.
    etrans; [|by apply IH].
    destruct (step_executed p l p1 Hs) as [->|[t ->]]; [done|].
    by apply prefix_app_r.
Qed.

Lemma heap_length_step p l p' :
  step p l = Some p' →
  length (heap p') = length (heap p) + (if is_submit l then 1 else 0).
Proof.
  intros Hs. destruct l as [c|w|i|i|]; simpl in *.
  - destruct (is_destroyed p); [done|]. injection Hs as <-. simpl.
    by rewrite length_app.
  - apply notify_one_spec in Hs as (_ & _ & _ & -> & _). lia.
  - unfold workerThread in Hs. destruct (workers_ p !! i) as [[]|]; try done;
      injection Hs as <-; unfold critical_section, run_task.
    + destruct (negb _); [simpl; lia|]. destruct (_ && _); [simpl; lia|].
      destruct (tasks_ p); simpl; lia.
    + destruct (negb _); [simpl; lia|]. destruct (_ && _); [simpl; lia|].
      destruct (tasks_ p); simpl; lia.
    + unfold invoke. destruct (heap p !! task) as [pt|]; [|simpl; lia].
      destruct (shared_state pt); simpl; [lia|]. rewrite length_insert. lia.
  - unfold spurious in Hs. destruct (workers_ p !! i) as [[]|]; try done.
    injection Hs as <-. simpl. lia.
  - unfold ThreadPool_dtor in Hs. destruct (dtor p) as [| |k|]; try done.
    + injection Hs as <-. simpl. lia.
    + injection Hs as <-. simpl. lia.
    + destruct (workers_ p !! k) as [[]|]; try done; injection Hs as <-; simpl; lia.
Qed.

Lemma heap_length_run tr : ∀ p p',
  run p tr = Some p' →
  length (heap p') = length (heap p) + count_labels is_submit tr.
Proof.
  induction tr as [|l tr IH]; intros p p'; simpl.
  - intros [= <-]. lia.
  - destruct (step p l) as [p1|] eqn:Hs; [|done]. intros Hr.
    rewrite (IH p1 p' Hr), (heap_length_step p l p1 Hs). lia.
Qed.

(** ** The worker set *)

(** X1: the pool has exactly the [num_threads] workers the constructor
    started (none for a count that is not positive), in every state it can
    reach; and as long as the destructor has not been entered none of them
    has returned from [workerThread]: each is at the top of its loop, asleep
    in the wait, woken, or holding a task. *)
Theorem workers_fixed_until_destruction (n : Z) tr p :
  run (ThreadPool_ctor V E n) tr = Some p →
  length (workers_ p) = Z.to_nat n
  ∧ (dtor p = Alive → ∀ i w, workers_ p !! i = Some w →
       w = AtLoop ∨ w = Blocked ∨ w = Woken ∨ ∃ t, w = Running t).
Proof.
  intros Hr. pose proof (Inv_reachable n tr p Hr) as HI.
  split; [by eapply workers_length_reachable|].
  intros Hd i w Hi. destruct w; eauto.
  - apply (inv_exit p HI) in Hi. apply (inv_stop p HI) in Hi. done.
  - by apply (inv_no_crash p HI) in Hi.
Qed.

(** X2: no worker ever calls [front()] on an empty queue and no exception
    ever leaves [task()]: in every reachable pool no worker has ended
    abnormally, and a task that a worker holds is a packaged task of the heap
    that has not been invoked yet, so that invoking it cannot throw. *)
Theorem workers_never_crash (n : Z) tr p :
  run (ThreadPool_ctor V E n) tr = Some p →
  (∀ i, workers_ p !! i ≠ Some Crashed)
  ∧ (∀ i t, workers_ p !! i = Some (Running t) →
       ∃ pt, heap p !! t = Some pt ∧ shared_state pt = None
             ∧ invoke t (heap p)
               = Some (<[t:=PackagedTask (stored_fn pt) (Some (stored_fn pt tt))]> (heap p)))
  ∧ (∀ i p', workerThread i p = Some p' → workers_ p' !! i ≠ Some Crashed).
Proof.
  intros Hr. pose proof (Inv_reachable n tr p Hr) as HI.
  split; [apply (inv_no_crash p HI)|]. split.
  - intros i t Hi. destruct (Inv_held_fresh i t p HI Hi) as (_ & pt & Hpt & Hss).
    exists pt. split; [done|]. split; [done|]. unfold invoke. by rewrite Hpt, Hss.
  - intros i p' Hw. apply (inv_no_crash p').
    by eapply Inv_workerThread.
Qed.

(** ** Where a task is *)

(** X3: every task ever submitted is at every moment in exactly one place:
    still in the queue, held by exactly one worker, or executed.  The
    executed tasks, the tasks held by workers and the queued tasks together
    are the submitted tasks, each once. *)
Theorem task_in_exactly_one_place (n : Z) tr p :
  run (ThreadPool_ctor V E n) tr = Some p →
  executed p ++ running (workers_ p) ++ tasks_ p ≡ₚ seq 0 (length (heap p))
  ∧ NoDup (executed p ++ running (workers_ p) ++ tasks_ p)
  ∧ length (executed p) + length (running (workers_ p)) + length (tasks_ p)
    = count_labels is_submit tr.
Proof.
  intros Hr. pose proof (Inv_reachable n tr p Hr) as HI.
  assert (Hp : executed p ++ running (workers_ p) ++ tasks_ p
               ≡ₚ seq 0 (length (heap p))).
  { by rewrite app_assoc, (inv_held p HI), (inv_fifo p HI). }
  split; [done|]. split.
  - rewrite Hp. apply NoDup_seq.
  - pose proof (Permutation_length Hp) as Hl.
    rewrite !length_app, length_seq in Hl.
    pose proof (heap_length_run tr _ p Hr) as Hh. simpl in Hh. lia.
Qed.

(** ** Futures *)

(** X5: a future is written once.  While the pool exists (its destructor
    has not returned), the shared state of a task is ready exactly when the
    task has been invoked; and once [get()] can return an outcome it returns
    that same outcome in every later state of the pool. *)
Theorem future_written_once (n : Z) tr p t :
  run (ThreadPool_ctor V E n) tr = Some p →
  (is_destroyed p = false → (is_Some (get p t) ↔ t ∈ executed p))
  ∧ (∀ r tr' p', get p t = Some r → run p tr' = Some p' → get p' t = Some r).
Proof.
  intros Hr. pose proof (Inv_reachable n tr p Hr) as HI. split.
  - intros _. split.
    + intros [r Hg]. by apply get_sound in Hg as [? _].
    + intros Hex.
      assert (Hlt : t < length (heap p)).
      { by apply Inv_dequeued_lt, Inv_executed_dequeued. }
      destruct (lookup_lt_is_Some_2 _ _ Hlt) as [pt Hpt].
      rewrite (get_executed p t pt HI Hpt Hex). eauto.
  - intros r tr' p' Hg Hr'.
    apply get_sound in Hg as (Hex & pt & Hpt & ->); [|done].
    destruct (stored_fn_run tr' t pt p p' Hr' Hpt) as (pt' & Hpt' & Hfn).
    rewrite <- Hfn. apply get_executed; [by eapply Inv_run|done|].
    eapply elem_of_prefix; [done|]. by eapply executed_run_prefix.
Qed.

(** ** One worker *)

Lemma seq_prefix_is_seq (l1 l2 : list nat) (n : nat) :
  l1 ++ l2 = seq 0 n → l1 = seq 0 (length l1).
Proof.
  intros H.
  assert (Hn : n = length l1 + length l2).
  { rewrite <- (length_seq n 0), <- H. apply length_app. }
  subst n. rewrite seq_app in H.
  by apply app_inj_1 in H as [? _]; [|rewrite length_seq].
Qed.

(** With a single worker the tasks are executed in the order in which they
    were dequeued. *)
Lemma single_worker_step p l p' w :
  Inv p → workers_ p = [w] →
  executed p ++ running_of w = (dequeued p).*2 →
  step p l = Some p' →
  ∃ w', workers_ p' = [w'] ∧ executed p' ++ running_of w' = (dequeued p').*2.
Proof.
  intros HI Hws Hord Hs. destruct l as [c|o|i|i|]; simpl in Hs.
  - destruct (is_destroyed p); [done|]. injection Hs as <-. by exists w.
  - unfold notify_one in Hs. destruct (unnotified p); [done|].
    destruct o as [i|].
    + rewrite Hws in Hs. destruct i as [|i]; simpl in Hs; [|done].
      destruct w; try done. injection Hs as <-. simpl. rewrite ?Hws.
      by exists Woken.
    + destruct (forallb _ _); [|done]. injection Hs as <-. by exists w.
  - assert (Hcs : running_of w = [] →
      ∃ w', workers_ (critical_section 0 p) = [w']
            ∧ executed (critical_section 0 p) ++ running_of w'
              = (dequeued (critical_section 0 p)).*2).
    { intros Hidle. rewrite Hidle in Hord. unfold critical_section.
      destruct (negb _); [simpl; rewrite Hws; by exists Blocked|].
      destruct (_ && _); [simpl; rewrite Hws; by exists Terminated|].
      destruct (tasks_ p) as [|t q]; simpl; rewrite Hws; simpl.
      - by exists Crashed.
      - exists (Running t). split; [done|]. rewrite fmap_app. simpl.
        rewrite <- Hord. by rewrite app_nil_r. }
    unfold workerThread in Hs.
    destruct (workers_ p !! i) as [w0|] eqn:Hi; [|done].
    rewrite Hws in Hi. destruct i as [|i]; simpl in Hi; [|done].
    injection Hi as <-.
    destruct w; try done; injection Hs as <-; try (by apply Hcs).
    assert (Hi : workers_ p !! 0 = Some (Running task)) by (by rewrite Hws).
    destruct (Inv_held_fresh 0 task p HI Hi) as (_ & pt & Hpt & Hss).
    unfold run_task, invoke. rewrite Hpt, Hss. simpl. rewrite Hws.
    exists AtLoop. split; [done|]. simpl. by rewrite app_nil_r.
  - unfold spurious in Hs. rewrite Hws in Hs.
    destruct i as [|i]; simpl in Hs; [|done].
    destruct w; try done. injection Hs as <-. simpl. rewrite ?Hws.
    by exists Woken.
  - unfold ThreadPool_dtor in Hs. destruct (dtor p) as [| |k|]; try done.
    + injection Hs as <-. by exists w.
    + injection Hs as <-. simpl. rewrite Hws. exists (wake w).
      split; [done|]. by destruct w.
    + destruct (workers_ p !! k) as [[]|]; try done; injection Hs as <-; by exists w.
Qed.

Lemma single_worker_run tr : ∀ p p' w,
  Inv p → workers_ p = [w] →
  executed p ++ running_of w = (dequeued p).*2 →
  run p tr = Some p' →
  ∃ w', workers_ p' = [w'] ∧ executed p' ++ running_of w' = (dequeued p').*2.
Proof.
  induction tr as [|l tr IH]; intros p p' w HI Hws Hord; simpl.
  - intros [= <-]. by exists w.
  - destruct (step p l) as [p1|] eqn:Hs; [|done]. intros Hr.
    destruct (single_worker_step p l p1 w HI Hws Hord Hs) as (w1 & Hws1 & Hord1).
    eapply IH; [by eapply Inv_step|done..].
Qed.

(** X4: a pool of one worker completes its tasks in strict submission order:
    at every moment the tasks executed so far are the first submitted ones,
    in the order of submission; hence a ready future means that the futures
    of all earlier submissions are ready too. *)
Theorem single_worker_runs_in_submission_order tr p :
  run (ThreadPool_ctor V E 1) tr = Some p →
  executed p = seq 0 (length (executed p))
  ∧ (∀ t t', is_Some (get p t) → t' < t → is_Some (get p t')).
Proof.
  intros Hr. pose proof (Inv_reachable 1 tr p Hr) as HI.
  destruct (single_worker_run tr _ p AtLoop (Inv_ctor 1) eq_refl eq_refl Hr)
    as (w & Hws & Hord).
  assert (Hex : executed p = seq 0 (length (executed p))).
  { apply (seq_prefix_is_seq _ (running_of w ++ tasks_ p) (length (heap p))).
    by rewrite app_assoc, Hord, (inv_fifo p HI). }
  split; [done|]. intros t t' [r Hg] Hlt.
  apply get_sound in Hg as (Hin & _); [|done].
  assert (Hin' : t' ∈ executed p).
  { rewrite Hex in Hin |- *. apply elem_of_seq in Hin. apply elem_of_seq. lia. }
  assert (Hlt' : t' < length (heap p)).
  { by apply Inv_dequeued_lt, Inv_executed_dequeued. }
  destruct (lookup_lt_is_Some_2 _ _ Hlt') as [pt Hpt].
  rewrite (get_executed p t' pt HI Hpt Hin'). eauto.
Qed.

(** ** A pool at rest *)

(** X6: no wake-up is lost.  When a pool with at least one worker, whose
    destructor has not been entered, is at rest, every worker is asleep in
    the wait, the queue is empty, every task ever submitted has been executed
    and every future is ready. *)
Theorem idle_pool_has_finished_everything (n : Z) tr p :
  (1 ≤ n)%Z →
  run (ThreadPool_ctor V E n) tr = Some p →
  dtor p = Alive →
  quiescent p = true →
  (∀ i w, workers_ p !! i = Some w → w = Blocked)
  ∧ tasks_ p = []
  ∧ executed p ≡ₚ seq 0 (length (heap p))
  ∧ (∀ t, t < length (heap p) → is_Some (get p t)).
Proof.
  intros Hn Hr Hd Hq. pose proof (Inv_reachable n tr p Hr) as HI.
  destruct (quiescent_spec p Hq) as (Hsl & Hun & _).
  assert (Hst : stop_ p = false).
  { destruct (stop_ p) eqn:Hst; [|done]. by apply (inv_stop p HI) in Hst. }
  assert (Hbl : ∀ i w, workers_ p !! i = Some w → w = Blocked).
  { intros i w Hi. specialize (Hsl i w Hi). unfold awake in Hsl.
    destruct w; try done.
    - apply (inv_exit p HI) in Hi. congruence.
    - by apply (inv_no_crash p HI) in Hi. }
  assert (Hq0 : tasks_ p = []).
  { destruct (tasks_ p) as [|t q] eqn:Hq0; [done|]. exfalso.
    pose proof (workers_length_reachable n tr p Hr) as Hlen.
    destruct (lookup_lt_is_Some_2 (workers_ p) 0) as [w0 Hw0]; [lia|].
    pose proof (Hbl 0 w0 Hw0) as ->.
    destruct (inv_wakeup p HI) as [(j & w & Hj & Hw')|[Hlt|Hnb]].
    - by rewrite Hq0.
    - by apply (Hsl j w Hj).
    - lia.
    - by apply (Hnb 0). }
  assert (Hex : executed p ≡ₚ seq 0 (length (heap p))).
  { rewrite <- (inv_fifo p HI), Hq0, app_nil_r, <- (inv_held p HI).
    by rewrite (quiescent_no_running p Hq), app_nil_r. }
  split; [done|]. split; [done|]. split; [done|].
  intros t Ht.
  destruct (lookup_lt_is_Some_2 _ _ Ht) as [pt Hpt].
  rewrite (get_executed p t pt HI Hpt); [eauto|].
  rewrite Hex. apply elem_of_seq. lia.
Qed.

(** ** Coming to rest *)

Lemma total_weight_bound (ws : list worker) : total_weight ws ≤ 3 * length ws.
Proof. induction ws as [|w ws IH]; simpl; [lia|]. destruct w; simpl; lia. Qed.

Lemma quiescent_no_internal_step p l :
  quiescent p = true → internal p l = true → step p l = None.
Proof.
  unfold quiescent. intros [[Hw Hu%bool_decide_eq_true]%andb_prop Hd]%andb_prop Hint.
  destruct l as [c|o|i|i|]; simpl in *; try done.
  - unfold notify_one. by rewrite Hu.
  - unfold workerThread. destruct (workers_ p !! i) as [w|] eqn:Hi; [|done].
    pose proof (proj1 (forallb_asleep _) Hw i w Hi) as Hsl. unfold awake in Hsl.
    by destruct w.
  - unfold ThreadPool_dtor. destruct (dtor p) as [| |k|]; try done.
    by destruct (workers_ p !! k) as [[]|].
Qed.

(** X7: the pool's own threads cannot run forever.  Without a new call of
    [submit] and without spurious wake-ups, the workers, the owed
    [notify_one] calls and a destructor that has been entered take, under
    every scheduler, at most [5 W + 2 Q + 2 U + 3] transitions (for [W]
    workers, [Q] queued tasks and [U] owed notifications); they can always
    go on until the pool is at rest, and at rest none of them can move. *)
Theorem pool_comes_to_rest p :
  (∀ tr p', run_internal p tr = Some p' →
     length tr ≤ 5 * length (workers_ p) + 2 * length (tasks_ p)
                 + 2 * unnotified p + 3)
  ∧ (∀ tr p', run_internal p tr = Some p' → quiescent p' = false →
       ∃ l p'', run_internal p (tr ++ [l]) = Some p'')
  ∧ (∃ tr p', run_internal p tr = Some p' ∧ quiescent p' = true)
  ∧ (quiescent p = true → ∀ l, internal p l = true → step p l = None).
Proof.
  split; [|split; [|split]].
  - intros tr p' Hr. apply run_internal_bounded in Hr.
    assert (Hm : measure p ≤ 5 * length (workers_ p) + 2 * length (tasks_ p)
                             + 2 * unnotified p + 3).
    { unfold measure. pose proof (total_weight_bound (workers_ p)).
      destruct (dtor p); simpl; lia. }
    lia.
  - intros tr p' Hr Hq. destruct (progress p' Hq) as (l & p'' & Hint & Hs).
    exists l, p''. revert p Hr. induction tr as [|l0 tr IH]; intros p; simpl.
    + intros [= ->]. by rewrite Hint, Hs.
    + destruct (internal p l0); [|done]. destruct (step p l0); [apply IH|done].
  - apply drain_exists.
  - intros Hq l. by apply quiescent_no_internal_step.
Qed.

(** ** The destructor returns *)

Lemma stop_monotone_run tr : ∀ p p',
  run p tr = Some p' → stop_ p = true → stop_ p' = true.
Proof.
  induction tr as [|l tr IH]; intros p p'; simpl.
  - by intros [= <-].
  - destruct (step p l) as [p1|] eqn:Hs; [|done]. intros Hr Hst.
    apply (IH p1 p' Hr). by eapply stop_monotone_step.
Qed.

(** X8: provided that every task a worker invokes returns or throws (a
    callable is a function here; a task that never returns keeps its worker,
    and with it [join], for ever), the destructor does not hang in [join].
    Once it has been entered, whenever the pool comes to rest the destructor
    has returned and every worker has returned from its loop; and from every
    state the pool's own threads can and, by the bound on their transitions,
    must get there. *)
Theorem destructor_returns (n : Z) tr p :
  run (ThreadPool_ctor V E n) tr = Some p →
  dtor p ≠ Alive →
  (∀ tr' p', run p tr' = Some p' → quiescent p' = true →
     dtor p' = Destroyed ∧ all_terminated p' ∧ running (workers_ p') = [])
  ∧ (∃ tr' p', run_internal p tr' = Some p' ∧ dtor p' = Destroyed
               ∧ all_terminated p').
Proof.
  intros Hr Hd. pose proof (Inv_reachable n tr p Hr) as HI.
  assert (Hst : stop_ p = true) by (by apply (inv_stop p HI)).
  assert (Hrest : ∀ tr' p', run p tr' = Some p' → quiescent p' = true →
            dtor p' = Destroyed ∧ all_terminated p' ∧ running (workers_ p') = []).
  { intros tr' p' Hr' Hq.
    assert (HI' : Inv p') by (by eapply Inv_run).
    assert (Hst' : stop_ p' = true) by (by eapply stop_monotone_run).
    pose proof (stopped_rest_all_terminated p' HI' Hst' Hq) as Hall.
    split; [|split; [done|by apply quiescent_no_running]].
    apply (inv_stop p' HI') in Hst'.
    unfold quiescent in Hq. apply andb_prop in Hq as [_ Hq].
    destruct (dtor p') as [| |k|]; try done.
    destruct (workers_ p' !! k) as [w|] eqn:Hk; [|done].
    by rewrite (Hall k w Hk) in Hq. }
  split; [done|].
  destruct (drain_exists p) as (tr' & p' & Hr' & Hq).
  destruct (Hrest tr' p' (run_internal_run tr' p p' Hr') Hq) as (? & ? & _).
  by exists tr', p'.
Qed.

(** ** No workers *)

(** X9: a pool constructed with a worker count that is not positive accepts
    tasks and never runs one: every submitted task stays in the queue, in
    submission order, no future ever becomes ready, and the destructor runs
    through its three steps without waiting for anything, leaving the queue
    as it is. *)
Theorem zero_workers_run_nothing (n : Z) tr p :
  (n ≤ 0)%Z →
  run (ThreadPool_ctor V E n) tr = Some p →
  workers_ p = [] ∧ executed p = [] ∧ dequeued p = []
  ∧ tasks_ p = seq 0 (length (heap p))
  ∧ length (tasks_ p) = count_labels is_submit tr
  ∧ (∀ t, get p t = None)
  ∧ (dtor p = Alive →
     ∃ p', run p [Destroy; Destroy; Destroy] = Some p' ∧ dtor p' = Destroyed
           ∧ tasks_ p' = tasks_ p).
Proof.
  intros Hn Hr. pose proof (Inv_reachable n tr p Hr) as HI.
  assert (Hws : workers_ p = []).
  { apply nil_length_inv. rewrite (workers_length_reachable n tr p Hr). lia. }
  assert (Hex : executed p = []).
  { assert (Hall : all_terminated (ThreadPool_ctor V E n)).
    { intros i w. simpl. replace (Z.to_nat n) with 0 by lia. done. }
    by destruct (all_terminated_run tr _ p Hr Hall) as [_ ->]. }
  assert (Hdq : dequeued p = []).
  { pose proof (inv_held p HI) as Hh. rewrite Hex, Hws in Hh. simpl in Hh.
    symmetry in Hh. apply Permutation_nil_r in Hh. by apply fmap_nil_inv in Hh. }
  assert (Hq : tasks_ p = seq 0 (length (heap p))).
  { rewrite <- (inv_fifo p HI), Hdq. done. }
  split; [done|]. split; [done|]. split; [done|]. split; [done|].
  split.
  { rewrite Hq, length_seq. pose proof (heap_length_run tr _ p Hr) as Hh.
    simpl in Hh. lia. }
  split.
  { intros t. apply get_pending; [done|]. rewrite Hex. apply not_elem_of_nil. }
  intros Hd. simpl. unfold ThreadPool_dtor at 1. rewrite Hd. simpl.
  unfold ThreadPool_dtor at 1. simpl. unfold ThreadPool_dtor. simpl.
  rewrite Hws. simpl. eauto.
Qed.

(** ** Fresh futures *)

(** X10: every call of [submit] creates a packaged task of its own.  The
    future it returns is the number of [submit] calls made before it, it
    refers to no packaged task that existed before the call, and no later
    call returns the same future. *)
Theorem futures_are_fresh (n : Z) tr p c :
  run (ThreadPool_ctor V E n) tr = Some p →
  (submit c p).2 = count_labels is_submit tr
  ∧ heap p !! (submit c p).2 = None
  ∧ (∀ tr' p' c', run (submit c p).1 tr' = Some p' →
       (submit c p).2 < (submit c' p').2).
Proof.
  intros Hr. split; [|split].
  - simpl. by rewrite (heap_length_run tr _ p Hr).
  - simpl. by apply lookup_ge_None.
  - intros tr' p' c' Hr'. simpl.
    rewrite (heap_length_run tr' _ p' Hr'). simpl. rewrite length_app. simpl. lia.
Qed.

End Further.

(** ** Concrete runs of the further properties *)

Lemma workers_fixed_until_destruction_witness :
  run (ThreadPool_ctor float unit 4) main_trace = Some main_final
  ∧ length (workers_ main_final) = 4.
Proof.
  split; [vm_compute; reflexivity|].
  apply (workers_fixed_until_destruction 4 main_trace main_final).
  vm_compute. reflexivity.
Defined.

Lemma workers_never_crash_witness :
  run (ThreadPool_ctor nat nat 1) (Submit boom :: boom_rest) = Some boom_final
  ∧ workers_ boom_final !! 0 ≠ Some Crashed.
Proof.
  split; [vm_compute; reflexivity|].
  destruct (workers_never_crash 1 (Submit boom :: boom_rest) boom_final
              ltac:(vm_compute; reflexivity)) as (Hno & _).
  apply Hno.
Defined.

Lemma task_in_exactly_one_place_witness :
  run (ThreadPool_ctor nat nat 2) (Submit ok5 :: race_rest) = Some race_state
  ∧ executed race_state ++ running (workers_ race_state) ++ tasks_ race_state
    ≡ₚ seq 0 (length (heap race_state)).
Proof.
  split; [vm_compute; reflexivity|].
  apply (task_in_exactly_one_place 2 (Submit ok5 :: race_rest) race_state).
  vm_compute. reflexivity.
Defined.

Lemma single_worker_runs_in_submission_order_witness :
  run (ThreadPool_ctor nat nat 1) (Submit boom :: boom_rest) = Some boom_final
  ∧ executed boom_final = seq 0 (length (executed boom_final)).
Proof.
  split; [vm_compute; reflexivity|].
  apply (single_worker_runs_in_submission_order (Submit boom :: boom_rest) boom_final).
  vm_compute. reflexivity.
Defined.

Lemma future_written_once_witness :
  run (ThreadPool_ctor nat nat 1) [Submit boom; NotifyOne None; Work 0; Work 0]
  = Some (after (ThreadPool_ctor nat nat 1) [Submit boom; NotifyOne None; Work 0; Work 0])
  ∧ get boom_final 0 = Some (Threw 7).
Proof.
  split; [vm_compute; reflexivity|].
  destruct (future_written_once 1 [Submit boom; NotifyOne None; Work 0; Work 0]
              (after (ThreadPool_ctor nat nat 1) [Submit boom; NotifyOne None; Work 0; Work 0])
              0 ltac:(vm_compute; reflexivity)) as (_ & Hkeep).
  apply (Hkeep (Threw 7) [Submit ok5; NotifyOne None; Work 0; Work 0; Work 0]).
  - vm_compute. reflexivity.
  - vm_compute. reflexivity.
Defined.

Lemma idle_pool_has_finished_everything_witness :
  (1 ≤ 1)%Z
  ∧ run (ThreadPool_ctor nat nat 1) (Submit boom :: boom_rest) = Some boom_final
  ∧ dtor boom_final = Alive
  ∧ quiescent boom_final = true
  ∧ tasks_ boom_final = [].
Proof.
  split; [lia|]. split; [vm_compute; reflexivity|].
  split; [vm_compute; reflexivity|]. split; [vm_compute; reflexivity|].
  apply (idle_pool_has_finished_everything 1 (Submit boom :: boom_rest) boom_final);
    [lia|vm_compute; reflexivity..].
Defined.

Lemma destructor_returns_witness :
  run (ThreadPool_ctor nat nat 2) [Submit ok5; Work 0; Destroy]
  = Some (after (ThreadPool_ctor nat nat 2) [Submit ok5; Work 0; Destroy])
  ∧ dtor (after (ThreadPool_ctor nat nat 2) [Submit ok5; Work 0; Destroy]) ≠ Alive
  ∧ ∃ tr' p',
      run_internal (after (ThreadPool_ctor nat nat 2) [Submit ok5; Work 0; Destroy]) tr'
      = Some p'
      ∧ dtor p' = Destroyed ∧ all_terminated p'.
Proof.
  split; [vm_compute; reflexivity|]. split; [vm_compute; discriminate|].
  apply (destructor_returns 2 [Submit ok5; Work 0; Destroy]);
    [vm_compute; reflexivity|vm_compute; discriminate].
Defined.

Lemma zero_workers_run_nothing_witness :
  (0 ≤ 0)%Z
  ∧ run (ThreadPool_ctor nat nat 0) [Submit ok5; NotifyOne None]
    = Some (after (ThreadPool_ctor nat nat 0) [Submit ok5; NotifyOne None])
  ∧ tasks_ (after (ThreadPool_ctor nat nat 0) [Submit ok5; NotifyOne None]) = [0]
  ∧ get (after (ThreadPool_ctor nat nat 0) [Submit ok5; NotifyOne None]) 0 = None.
Proof.
  split; [lia|]. split; [vm_compute; reflexivity|].
  split; [vm_compute; reflexivity|].
  apply (zero_workers_run_nothing 0 [Submit ok5; NotifyOne None]);
    [lia|vm_compute; reflexivity].
Defined.

Lemma futures_are_fresh_witness :
  run (ThreadPool_ctor float unit 4) main_trace = Some main_final
  ∧ (submit (bind add (1%float, 2%float)) main_final).2 = 2.
Proof.
  split; [vm_compute; reflexivity|].
  apply (futures_are_fresh 4 main_trace main_final (bind add (1%float, 2%float))).
  vm_compute. reflexivity.
Defined.

(** * Binding of the arguments *)

Section EagerBinding.
Context {V E : Type}.
Implicit Types (c : caller V E) (ctr : list (caller_label V E)).

Lemma step_executed_invoked (p p' : ThreadPool (deferred V E) Empty_set) l t :
  step p l = Some p' → t ∈ executed p' →
  t ∈ executed p ∨ invoked_task p l = Some t.
Proof.
  intros Hs. destruct l as [cb|w|i|i|]; simpl in *.
  - destruct (is_destroyed p); [done|]. injection Hs as <-. by left.
  - unfold notify_one in Hs. destruct (unnotified p); [done|].
    destruct w as [i|].
    + destruct (workers_ p !! i) as [[]|]; try done. injection Hs as <-. by left.
    + destruct (forallb _ _); [|done]. injection Hs as <-. by left.
  - unfold workerThread in Hs. destruct (workers_ p !! i) as [[]|]; try done;
      injection Hs as <-; unfold critical_section, run_task.
    + destruct (negb _); [by left|]. destruct (_ && _); [by left|].
      destruct (tasks_ p); by left.
    + destruct (negb _); [by left|]. destruct (_ && _); [by left|].
      destruct (tasks_ p); by left.
    + destruct (invoke _ _); simpl; [|by left].
      intros [Hin|Hin%list_elem_of_singleton]%elem_of_app; [by left|].
      subst t. by right.
  - unfold spurious in Hs. destruct (workers_ p !! i) as [[]|]; try done.
    injection Hs as <-. by left.
  - unfold ThreadPool_dtor in Hs. destruct (dtor p) as [| |k|]; try done.
    + injection Hs as <-. by left.
    + injection Hs as <-. by left.
    + destruct (workers_ p !! k) as [[]|]; try done; injection Hs as <-; by left.
Qed.

Lemma caller_inv_step c l c' :
  caller_step c l = Some c' → caller_inv c → caller_inv c'.
Proof.
  intros Hs HI t. destruct l as [x v|f a|l]; simpl in Hs.
  - injection Hs as <-. apply HI.
  - destruct (is_destroyed (pool c)); [done|]. injection Hs as <-. apply HI.
  - destruct (step (pool c) l) as [p1|] eqn:Hp; [|done]. injection Hs as <-.
    simpl. intros [Hin|Hinv]%(step_executed_invoked _ _ _ _ Hp).
    + destruct (invoked_task (pool c) l); [|by apply HI].
      case_decide; [done|by apply HI].
    + rewrite Hinv. by rewrite decide_True.
Qed.

Lemma caller_inv_run ctr : ∀ c c',
  caller_run c ctr = Some c' → caller_inv c → caller_inv c'.
Proof.
  induction ctr as [|l ctr IH]; intros c c'; simpl.
  - by intros [= <-].
  - destruct (caller_step c l) as [c1|] eqn:Hs; [|done].
    intros Hr HI. apply (IH c1 c' Hr). by eapply caller_inv_step.
Qed.

Lemma caller_run_pool ctr : ∀ c c',
  caller_run c ctr = Some c' → ∃ tr, run (pool c) tr = Some (pool c').
Proof.
  induction ctr as [|l ctr IH]; intros c c'; simpl.
  - intros [= <-]. by exists [].
  - destruct (caller_step c l) as [c1|] eqn:Hs; [|done].
    intros (tr & Hr)%IH. destruct l as [x v|f a|l]; simpl in Hs.
    + injection Hs as <-. by exists tr.
    + destruct (is_destroyed (pool c)) eqn:Hd; [done|]. injection Hs as <-.
      eexists (Submit _ :: tr). simpl. rewrite Hd. exact Hr.
    + destruct (step (pool c) l) as [p1|] eqn:Hp; [|done]. injection Hs as <-.
      exists (l :: tr). simpl. by rewrite Hp.
Qed.


End EagerBinding.


